(** * Tic-tac-toe server: the move handler and its neighbours

    A shallow embedding of the handlers of the tic-tac-toe server
    ([server/src/schema.ts], [server/src/db/schema.ts] and
    [server/src/handlers/*.ts]) and the properties of the move-resolution
    engine proved about it.

    Conventions of the embedding:
    - a JavaScript value read from the board is [undefined], [null], ['X']
      or ['O']; a cell ([Player | null]) is [option Player] and the result
      of an indexed read is [option Cell], [None] standing for [undefined];
    - the [games] table is a finite map from the primary key to the row,
      together with the counter of the [serial] column;
    - an [async] handler is a function from the clock reading and the
      database to the new database and a settled promise;
    - [console.error] in the [catch] blocks only logs before rethrowing and
      is left out. *)

From Stdlib Require Import ZArith List Bool Lia.
From stdpp Require Import base decidable option list gmap sorting.

(** ** [server/src/schema.ts] *)

Inductive Player : Type := X | O.
Inductive GameStatus : Type := waiting | in_progress | completed.
Inductive GameResult : Type := X_wins | O_wins | draw | ongoing.

#[global] Instance Player_eq_dec : EqDecision Player.
Proof. solve_decision. Defined.
#[global] Instance GameStatus_eq_dec : EqDecision GameStatus.
Proof. solve_decision. Defined.
#[global] Instance GameResult_eq_dec : EqDecision GameResult.
Proof. solve_decision. Defined.

(** [cellSchema = z.union([playerSchema, z.null()])]: [None] is [null]. *)
Abbreviation Cell := (option Player).

(** [boardSchema = z.array(cellSchema).length(9)].  The length is a run-time
    check of the schema, not a property of the array type, so it is a
    predicate here. *)
Abbreviation Board := (list (option Player)).

Definition boardSchema (board : Board) : bool := bool_decide (length board = 9).

(** Dates are kept as their time value (milliseconds since the epoch). *)
Abbreviation Date := Z.

Record Game : Type := mkGame {
  id : Z;
  board : Board;
  current_player : Player;
  status : GameStatus;
  result : GameResult;
  winner : option Player;
  created_at : Date;
  updated_at : Date
}.

(** [game_id] and [position] are integers here.  ([z.number()] also admits
    non-integral numbers for [game_id]; they are outside this model.) *)
Record MakeMoveInput : Type := mkMakeMoveInput {
  game_id : Z;
  position : Z;
  player : Player
}.

(** ** JavaScript arrays *)

(** [board[position]] for an integer [position]: [undefined] ([None]) outside
    the array. *)
Definition array_get (board : Board) (position : Z) : option Cell :=
  if decide (0 ≤ position)%Z then board !! Z.to_nat position else None.

(** [board[position] = v] on an index of the array.  Outside the array
    JavaScript would grow the array (or add a property for a negative index);
    [makeMove] only assigns after reading [null] at the same index, so that
    case does not arise there (lemma [array_get_null_in_range]) and the
    array is returned as it is. *)
Definition array_set (board : Board) (position : Z) (v : Cell) : Board :=
  if decide (0 ≤ position < Z.of_nat (length board))%Z
  then <[Z.to_nat position := v]> board
  else board.

(** ** [server/src/handlers/make_move.ts]: the pure helpers *)

Definition winPatterns : list (list Z) :=
  [ (* Rows *)
    [0; 1; 2]; [3; 4; 5]; [6; 7; 8];
    (* Columns *)
    [0; 3; 6]; [1; 4; 7]; [2; 5; 8];
    (* Diagonals *)
    [0; 4; 8]; [2; 4; 6] ]%Z.

Definition checkWinCondition (board : Board) (player : Player) : bool :=
  existsb
    (fun pattern =>
       forallb
         (fun position =>
            bool_decide (array_get board position = Some (Some player)))
         pattern)
    winPatterns.

Definition isBoardFull (board : Board) : bool :=
  forallb (fun cell => bool_decide (cell ≠ None)) board.

Definition determineGameResult (board : Board) (currentPlayer : Player)
  : GameResult :=
  if checkWinCondition board currentPlayer then
    if decide (currentPlayer = X) then X_wins else O_wins
  else if isBoardFull board then draw
  else ongoing.

(** ** The record store ([server/src/db]) *)

(** What a handler can throw.  The handlers throw [Error] objects that differ
    only by their message; one constructor per message template:
    - [GameNotFound k]: "Game with id k not found" ([makeMove]);
    - [GameIDNotFound k]: "Game with ID k not found" ([resetGame]);
    - [GameAlreadyCompleted]: "Game is already completed";
    - [GameNotStarted]: "Game is not yet started";
    - [WrongTurn p c]: "It's not p's turn. Current player is c";
    - [PositionOccupied i]: "Position i is already occupied";
    - [TypeError]: a field of [undefined] is read ([result[0]] of an empty
      result);
    - [UniqueViolation]: the database refuses a duplicate primary key;
    - [NumericValueOutOfRange]: the database refuses a number outside the
      range of the [id] column (error 22003: [serial] is a 32-bit integer,
      and the input schemas take any [z.number()]);
    - [SequenceLimitExceeded]: the sequence of the [serial] column has
      reached its maximum (error 2200H).
    The last four are not thrown by the handlers' own code: they come from
    the runtime or the database and pass through the [catch] blocks, which
    rethrow. *)
Inductive Error : Type :=
  | GameNotFound (game_id : Z)
  | GameIDNotFound (game_id : Z)
  | GameAlreadyCompleted
  | GameNotStarted
  | WrongTurn (player current_player : Player)
  | PositionOccupied (position : Z)
  | TypeError
  | UniqueViolation
  | NumericValueOutOfRange
  | SequenceLimitExceeded.

Inductive Promise (A : Type) : Type :=
  | Resolved (a : A)
  | Rejected (e : Error).
Arguments Resolved {A} a.
Arguments Rejected {A} e.

(** The range of the [id] column ([serial], a 32-bit integer). *)
Definition int4_max : Z := 2147483647.

Definition in_int4 (k : Z) : Prop := (- int4_max - 1 ≤ k ≤ int4_max)%Z.

#[global] Instance in_int4_dec (k : Z) : Decision (in_int4 k).
Proof. unfold in_int4. apply _. Defined.

(** The [games] table: rows by primary key, and the last value handed out by
    the sequence of the [serial] column. *)
Record Database : Type := mkDatabase {
  games : gmap Z Game;
  games_id_seq : Z
}.

(** An [async] function body: it runs against the database and settles. *)
Definition Async (A : Type) : Type := Database → Database * Promise A.

Definition ret {A : Type} (a : A) : Async A :=
  fun db => (db, Resolved a).

Definition throw {A : Type} (e : Error) : Async A :=
  fun db => (db, Rejected e).

Definition bind {A B : Type} (m : Async A) (k : A → Async B) : Async B :=
  fun db =>
    match m db with
    | (db', Resolved a) => k a db'
    | (db', Rejected e) => (db', Rejected e)
    end.

Notation "'await' x ':=' m 'in' k" := (bind m (fun x => k))
  (at level 10, x name, m at level 100, k at level 200, only parsing).

(** [db.select().from(gamesTable).where(eq(gamesTable.id, k)).execute()].
    When no row has the key, the answer is the empty list for a key in the
    range of the column, and the query fails for a number outside it.  (A
    table the database can hold has no key outside the range, so that on such
    a table a number outside the range always fails: lemma
    [db_select_out_of_range].) *)
Definition db_select (k : Z) : Async (list Game) :=
  fun db =>
    match games db !! k with
    | Some row => (db, Resolved [row])
    | None =>
        if decide (in_int4 k) then (db, Resolved [])
        else (db, Rejected NumericValueOutOfRange)
    end.

(** [db.update(gamesTable).set(..).where(eq(gamesTable.id, k)).returning()
    .execute()]: [set] rewrites the columns named in [.set]. *)
Definition db_update (k : Z) (set : Game → Game) : Async (list Game) :=
  fun db =>
    match games db !! k with
    | Some row =>
        (mkDatabase (<[k := set row]> (games db)) (games_id_seq db),
         Resolved [set row])
    | None =>
        if decide (in_int4 k) then (db, Resolved [])
        else (db, Rejected NumericValueOutOfRange)
    end.

(** [db.insert(gamesTable).values(..).returning().execute()]: the [serial]
    column takes the next value of the sequence; [values] receives it.  A
    sequence that has reached the maximum of the column hands out nothing
    more and the insert fails. *)
Definition db_insert (values : Z → Game) : Async (list Game) :=
  fun db =>
    let k := (games_id_seq db + 1)%Z in
    if decide (int4_max < k)%Z then (db, Rejected SequenceLimitExceeded)
    else
      match games db !! k with
      | Some _ => (mkDatabase (games db) k, Rejected UniqueViolation)
      | None =>
          (mkDatabase (<[k := values k]> (games db)) k, Resolved [values k])
      end.

(** [rows[0]] followed by a field access, as in
    [{...game, board: game.board}]. *)
Definition first_row (rows : list Game) : Async Game :=
  match rows with
  | [] => throw TypeError
  | game :: _ => ret game
  end.

(** [new Date(d)] on a date: a date with the same time value. *)
Definition new_Date (d : Date) : Date := d.

(** [Array(9).fill(null)] *)
Definition emptyBoard : Board := replicate 9 None.

(** ** [server/src/handlers/make_move.ts]: [makeMove] *)

Definition makeMove (now : Date) (input : MakeMoveInput) : Async Game :=
  (* 1. Fetch the game and validate it exists *)
  await games := db_select (game_id input) in
  match games with
  | [] => throw (GameNotFound (game_id input))
  | game :: _ =>
    let board := board game in
    (* 2. Validate that the game is in progress *)
    if decide (status game = completed) then throw GameAlreadyCompleted
    else if decide (status game = waiting) then throw GameNotStarted
    (* 3. Validate that it's the correct player's turn *)
    else if decide (current_player game ≠ player input)
    then throw (WrongTurn (player input) (current_player game))
    (* 4. Validate that the selected position is empty *)
    else if decide (array_get board (position input) ≠ Some None)
    then throw (PositionOccupied (position input))
    else
      (* 5. Update the board with the player's move *)
      let newBoard := array_set board (position input) (Some (player input)) in
      (* 6. Check for win and draw conditions *)
      let gameResult := determineGameResult newBoard (player input) in
      (* 7. Determine next player and game status *)
      let nextPlayer := if decide (player input = X) then O else X in
      let gameCompleted := bool_decide (gameResult ≠ ongoing) in
      let winner :=
        if decide (gameResult = X_wins) then Some X
        else if decide (gameResult = O_wins) then Some O
        else None in
      (* 8. Update the game in the database *)
      await updated :=
        db_update (game_id input)
          (fun row =>
             {| id := id row;
                board := newBoard;
                current_player :=
                  if gameCompleted then player input else nextPlayer;
                status := if gameCompleted then completed else in_progress;
                result := gameResult;
                winner := winner;
                created_at := created_at row;
                updated_at := now |}) in
      (* 9. Return the updated game state *)
      first_row updated
  end.

(** ** [createGame], [resetGame], [getGame] *)

Module ResetGameInput.
Record t : Type := mk { game_id : Z }.
End ResetGameInput.

Module GetGameInput.
Record t : Type := mk { game_id : Z }.
End GetGameInput.

(** The timestamps of a new row are the column defaults ([defaultNow()]). *)
Definition createGame (now : Date) : Async Game :=
  await inserted :=
    db_insert
      (fun k =>
         {| id := k;
            board := emptyBoard;
            current_player := X;
            status := in_progress;
            result := ongoing;
            winner := None;
            created_at := now;
            updated_at := now |}) in
  first_row inserted.

Definition resetGame (now : Date) (input : ResetGameInput.t) : Async Game :=
  (* First verify the game exists *)
  await existingGame := db_select (ResetGameInput.game_id input) in
  if decide (length existingGame = 0)
  then throw (GameIDNotFound (ResetGameInput.game_id input))
  else
    (* Reset the game to initial state *)
    await updated :=
      db_update (ResetGameInput.game_id input)
        (fun row =>
           {| id := id row;
              board := emptyBoard;
              current_player := X;
              status := in_progress;
              result := ongoing;
              winner := None;
              created_at := created_at row;
              updated_at := now |}) in
    first_row updated.

Definition getGame (input : GetGameInput.t) : Async (option Game) :=
  await results := db_select (GetGameInput.game_id input) in
  match results with
  | [] => ret None
  | game :: _ =>
      ret (Some {| id := id game;
                   board := board game;
                   current_player := current_player game;
                   status := status game;
                   result := result game;
                   winner := winner game;
                   created_at := new_Date (created_at game);
                   updated_at := new_Date (updated_at game) |})
  end.

(** ** The placeholder declarations

    The repository also holds stub declarations of the handlers ("This is a
    placeholder declaration! Real code should be implemented here.") that
    fabricate a record without consulting the database.  They are kept apart
    here from the implementations above, which the test suite exercises. *)

Module Placeholder.

Definition getGame (now : Date) (input : GetGameInput.t)
  : Async (option Game) :=
  ret (Some {| id := GetGameInput.game_id input;
               board := emptyBoard;
               current_player := X;
               status := in_progress;
               result := ongoing;
               winner := None;
               created_at := now;
               updated_at := now |}).

Definition resetGame (now : Date) (input : ResetGameInput.t) : Async Game :=
  ret {| id := ResetGameInput.game_id input;
         board := emptyBoard;
         current_player := X;
         status := in_progress;
         result := ongoing;
         winner := None;
         created_at := now; (* Placeholder - should keep original created_at *)
         updated_at := now |}.

End Placeholder.

(** ** The request layer ([server/src/index.ts])

    [makeMove: publicProcedure.input(makeMoveInputSchema).mutation(..)]: the
    input is parsed by the schema before the handler runs.  Of
    [makeMoveInputSchema] only [position: z.number().int().min(0).max(8)] can
    fail on a typed input. *)

Inductive ZodIssue : Type := too_small | too_big.

Definition makeMoveInputSchema (input : MakeMoveInput) : option ZodIssue :=
  if decide (position input < 0)%Z then Some too_small
  else if decide (8 < position input)%Z then Some too_big
  else None.

Inductive Response (A : Type) : Type :=
  | Success (a : A)
  | BadRequest (issue : ZodIssue)
  | InternalServerError (e : Error).
Arguments Success {A} a.
Arguments BadRequest {A} issue.
Arguments InternalServerError {A} e.

Definition appRouter_makeMove (now : Date) (input : MakeMoveInput)
  (db : Database) : Database * Response Game :=
  match makeMoveInputSchema input with
  | Some issue => (db, BadRequest issue)
  | None =>
      match makeMove now input db with
      | (db', Resolved game) => (db', Success game)
      | (db', Rejected e) => (db', InternalServerError e)
      end
  end.

(** ** Arrays as objects

    [const newBoard = [...board]; newBoard[input.position] = input.player;]
    An array variable holds a reference; the spread allocates a new array and
    the assignment writes through the reference it is given.  This small heap
    is what tells a copy from an alias. *)

Module Aliasing.

Definition Ref : Type := nat.

(** [[...board]] *)
Definition spread (board : Ref) (h : gmap nat Board)
  : option (Ref * gmap nat Board) :=
  match h !! board with
  | Some cells =>
      let newBoard := fresh (dom h) in
      Some (newBoard, <[newBoard := cells]> h)
  | None => None
  end.

(** [a[position] = v] *)
Definition assign (a : Ref) (position : Z) (v : Cell) (h : gmap nat Board)
  : gmap nat Board :=
  alter (fun cells => array_set cells position v) a h.

(** Step 5 of [makeMove]. *)
Definition update_board (board : Ref) (position : Z) (player : Player)
  (h : gmap nat Board) : option (Ref * gmap nat Board) :=
  match spread board h with
  | Some (newBoard, h1) =>
      Some (newBoard, assign newBoard position (Some player) h1)
  | None => None
  end.

End Aliasing.

(** ** The vocabulary of the specification *)

(** The outcome "the mover's win". *)
Definition win_of (mover : Player) : GameResult :=
  match mover with X => X_wins | O => O_wins end.

Definition other (mover : Player) : Player :=
  match mover with X => O | O => X end.

(** The 8 fixed triples: rows, columns, diagonals. *)
Definition spec_triples : list (nat * nat * nat) :=
  [ (0, 1, 2); (3, 4, 5); (6, 7, 8);
    (0, 3, 6); (1, 4, 7); (2, 5, 8);
    (0, 4, 8); (2, 4, 6) ].

(** All three cells of the triple hold the mover's mark. *)
Definition spec_triple_marked (b : Board) (mover : Player)
  (t : nat * nat * nat) : Prop :=
  b !! t.1.1 = Some (Some mover) ∧
  b !! t.1.2 = Some (Some mover) ∧
  b !! t.2 = Some (Some mover).

Definition spec_has_triple (b : Board) (mover : Player) : Prop :=
  ∃ t, t ∈ spec_triples ∧ spec_triple_marked b mover t.

(** Every one of the 9 cells is non-empty. *)
Definition spec_board_full (b : Board) : Prop :=
  ∀ i : nat, i < 9 → ∃ mark : Player, b !! i = Some (Some mark).

(** The two invariants of a record: the winner is present exactly for a win
    and is then the winning mover; the status is [completed] exactly when the
    outcome is not [ongoing]. *)
Definition spec_invariants (g : Game) : Prop :=
  (winner g ≠ None ↔ result g = X_wins ∨ result g = O_wins) ∧
  (result g = X_wins → winner g = Some X) ∧
  (result g = O_wins → winner g = Some O) ∧
  (status g = completed ↔ result g ≠ ongoing).

(** The failure kinds of the specification, and the kind each thrown message
    belongs to.  No message of the handlers speaks of a range: the kind
    [PositionOutOfRange] has no message. *)
Module Kind.
Inductive t : Type :=
  | NotFound
  | GameAlreadyCompleted
  | GameNotStarted
  | WrongTurn
  | PositionOutOfRange
  | PositionOccupied.
End Kind.

Definition spec_kind (e : Error) : option Kind.t :=
  match e with
  | GameNotFound _ => Some Kind.NotFound
  | GameIDNotFound _ => Some Kind.NotFound
  | GameAlreadyCompleted => Some Kind.GameAlreadyCompleted
  | GameNotStarted => Some Kind.GameNotStarted
  | WrongTurn _ _ => Some Kind.WrongTurn
  | PositionOccupied _ => Some Kind.PositionOccupied
  | TypeError => None
  | UniqueViolation => None
  | NumericValueOutOfRange => None
  | SequenceLimitExceeded => None
  end.

(** What a lookup of a key that is not in the table ends in: nothing found,
    or the failure of the query for a number outside the column's range. *)
Definition absent (k : Z) (not_found : Error) : Error :=
  if decide (in_int4 k) then not_found else NumericValueOutOfRange.

(** A table the database can hold: every key is in the range of the column
    and the sequence, which starts at 1, is within it. *)
Definition int4_wf (db : Database) : Prop :=
  (∀ k g, games db !! k = Some g → in_int4 k) ∧
  (0 ≤ games_id_seq db ≤ int4_max)%Z.

(** A table row carries its own key. *)
Definition db_wf (db : Database) : Prop :=
  ∀ k g, games db !! k = Some g → id g = k.

(** The row that step 8 of [makeMove] writes over the row [g]. *)
Definition moved_row (now : Date) (input : MakeMoveInput) (g : Game) : Game :=
  let newBoard := array_set (board g) (position input) (Some (player input)) in
  let gameResult := determineGameResult newBoard (player input) in
  {| id := id g;
     board := newBoard;
     current_player :=
       if bool_decide (gameResult ≠ ongoing) then player input
       else if decide (player input = X) then O else X;
     status :=
       if bool_decide (gameResult ≠ ongoing) then completed else in_progress;
     result := gameResult;
     winner :=
       if decide (gameResult = X_wins) then Some X
       else if decide (gameResult = O_wins) then Some O
       else None;
     created_at := created_at g;
     updated_at := now |}.

(** The row that [resetGame] writes over the row [g]. *)
Definition reset_row (now : Date) (g : Game) : Game :=
  {| id := id g;
     board := emptyBoard;
     current_player := X;
     status := in_progress;
     result := ongoing;
     winner := None;
     created_at := created_at g;
     updated_at := now |}.

(** ** [server/src/handlers/get_games.ts]: [getGames] *)

(** [desc(gamesTable.created_at)]: the more recent row comes first. *)
Definition created_desc (g1 g2 : Game) : Prop :=
  (created_at g2 ≤ created_at g1)%Z.

#[global] Instance created_desc_dec : RelDecision created_desc.
Proof. intros g1 g2. unfold created_desc. apply _. Defined.

(** [db.select().from(gamesTable).orderBy(desc(gamesTable.created_at))
    .execute()].  Rows with the same [created_at] come in an order the
    database chooses; the merge sort fixes one, and no property below depends
    on which. *)
Definition db_select_ordered : Async (list Game) :=
  fun db =>
    (db, Resolved (merge_sort created_desc (map_to_list (games db)).*2)).

Definition getGames : Async (list Game) :=
  (* Fetch all games ordered by most recent first *)
  await results := db_select_ordered in
  (* Transform results to match the expected Game type *)
  ret (map (fun row =>
              {| id := id row;
                 board := board row;
                 current_player := current_player row;
                 status := status row;
                 result := result row;
                 winner := winner row;
                 created_at := created_at row;
                 updated_at := updated_at row |})
           results).

(** ** A client playing moves one after the other

    Each call is awaited before the next one is made, as in the test "should
    handle multiple moves in sequence"; the settled promises are collected. *)
Fixpoint play (moves : list (Date * MakeMoveInput)) (db : Database)
  : Database * list (Promise Game) :=
  match moves with
  | [] => (db, [])
  | (now, input) :: rest =>
      let '(db1, settled) := makeMove now input db in
      let '(db2, others) := play rest db1 in
      (db2, settled :: others)
  end.

(** The moves of a sequence, aimed at the game [k], that resolved. *)
Fixpoint resolved_on (k : Z) (moves : list (Date * MakeMoveInput))
  (settled : list (Promise Game)) : nat :=
  match moves, settled with
  | (_, input) :: moves', Resolved _ :: settled' =>
      (if decide (game_id input = k) then 1 else 0)
      + resolved_on k moves' settled'
  | _ :: moves', Rejected _ :: settled' => resolved_on k moves' settled'
  | _, _ => 0
  end.

(** ** More vocabulary: marks, fair positions, symmetries *)

(** The number of cells holding the mark of [mover], and of empty cells. *)
Definition count_mark (mover : Player) (b : Board) : nat :=
  length (filter (fun cell => cell = Some mover) b).

Definition count_empty (b : Board) : nat :=
  length (filter (fun cell => cell = None) b).

(** A position as play from the empty board produces them: 9 cells; while in
    progress nobody holds a triple and the marks are as many as the turn
    requires (X starts); once completed, the mover who made the last
    move is the current player, the other one holds no triple and the marks
    still alternate. *)
Definition spec_fair (g : Game) : Prop :=
  length (board g) = 9 ∧
  match status g with
  | in_progress =>
      ¬ spec_has_triple (board g) X ∧ ¬ spec_has_triple (board g) O ∧
      count_mark X (board g)
      = count_mark O (board g)
        + (if decide (current_player g = X) then 0 else 1)
  | completed =>
      ¬ spec_has_triple (board g) (other (current_player g)) ∧
      count_mark X (board g)
      = count_mark O (board g)
        + (if decide (current_player g = X) then 1 else 0)
  | waiting => True
  end.

(** The board read through a rearrangement of its 9 cells: cell [i] of the
    result is cell [cells !! i] of the board. *)
Definition rearrange (cells : list nat) (b : Board) : Board :=
  (fun i => default None (b !! i)) <$> cells.

(** A quarter turn and the left-right mirror image of the 3 by 3 grid. *)
Definition quarter_turn : Board → Board :=
  rearrange [6; 3; 0; 7; 4; 1; 8; 5; 2].

Definition mirror : Board → Board :=
  rearrange [2; 1; 0; 5; 4; 3; 8; 7; 6].

(** The marks exchanged, and the result seen from the other side. *)
Definition swap_cell (cell : Cell) : Cell :=
  match cell with
  | Some mark => Some (other mark)
  | None => None
  end.

Definition swap_marks (b : Board) : Board := map swap_cell b.

Definition swap_result (r : GameResult) : GameResult :=
  match r with
  | X_wins => O_wins
  | O_wins => X_wins
  | draw => draw
  | ongoing => ongoing
  end.

(** The sequence has handed out every key of the table. *)
Definition seq_wf (db : Database) : Prop :=
  ∀ k g, games db !! k = Some g → (k ≤ games_id_seq db)%Z.

(** ** Concrete records used to exercise the theorems *)

Definition sample_game : Game :=
  {| id := 1;
     board := [Some X; Some X; None; Some O; Some O; None; None; None; None];
     current_player := X;
     status := in_progress;
     result := ongoing;
     winner := None;
     created_at := 1000;
     updated_at := 2000 |}.

Definition sample_db : Database :=
  {| games := {[ 1%Z := sample_game ]}; games_id_seq := 1 |}.

(** A completed game: X has won on the top row and the turn is frozen at X. *)
Definition completed_game : Game :=
  {| id := 2;
     board := [Some X; Some X; Some X; Some O; Some O; None; None; None; None];
     current_player := X;
     status := completed;
     result := X_wins;
     winner := Some X;
     created_at := 1000;
     updated_at := 2500 |}.

Definition completed_db : Database :=
  {| games := {[ 2%Z := completed_game ]}; games_id_seq := 2 |}.

Definition empty_db : Database :=
  {| games := ∅; games_id_seq := 0 |}.

(** A game that has not started. *)
Definition waiting_game : Game :=
  {| id := 3;
     board := replicate 9 None;
     current_player := X;
     status := waiting;
     result := ongoing;
     winner := None;
     created_at := 1000;
     updated_at := 1000 |}.

Definition waiting_db : Database :=
  {| games := {[ 3%Z := waiting_game ]}; games_id_seq := 3 |}.

(** Three games created at different times. *)
Definition three_db : Database :=
  {| games :=
       {[ 1%Z := sample_game;
          2%Z := {| id := 2;
                    board := replicate 9 None;
                    current_player := X;
                    status := in_progress;
                    result := ongoing;
                    winner := None;
                    created_at := 5000;
                    updated_at := 5000 |};
          3%Z := {| id := 3;
                    board := replicate 9 None;
                    current_player := X;
                    status := in_progress;
                    result := ongoing;
                    winner := None;
                    created_at := 3000;
                    updated_at := 3000 |} ]};
     games_id_seq := 3 |}.

(** * Properties *)

(** ** Examples from the test suite *)

Example determineGameResult_row :
  determineGameResult
    [Some X; Some X; Some X; None; Some O; Some O; None; None; None] X = X_wins.
Proof. reflexivity. Qed.

Example determineGameResult_draw :
  determineGameResult
    [Some X; Some O; Some X; Some O; Some O; Some X; Some X; Some X; Some O] O
  = draw.
Proof. reflexivity. Qed.

(** ** Arrays *)

Lemma array_get_nat (b : Board) (n : nat) :
  array_get b (Z.of_nat n) = b !! n.
Proof.
  unfold array_get. case_decide; [|lia]. by rewrite Nat2Z.id.
Qed.

Lemma array_get_in_range (b : Board) (i : Z) (c : Cell) :
  array_get b i = Some c → (0 ≤ i < Z.of_nat (length b))%Z.
Proof.
  unfold array_get. case_decide; [|done].
  intros Hc%lookup_lt_Some. lia.
Qed.

Lemma array_get_null_in_range (b : Board) (i : Z) :
  array_get b i = Some None → (0 ≤ i < Z.of_nat (length b))%Z.
Proof. apply array_get_in_range. Qed.

Lemma array_get_outside (b : Board) (i : Z) :
  (i < 0 ∨ Z.of_nat (length b) ≤ i)%Z → array_get b i = None.
Proof.
  intros Hi. unfold array_get. case_decide; [|done].
  apply lookup_ge_None. lia.
Qed.

Lemma array_set_in_range (b : Board) (i : Z) (v : Cell) :
  (0 ≤ i < Z.of_nat (length b))%Z →
  array_set b i v = <[Z.to_nat i := v]> b.
Proof. intros Hi. unfold array_set. by case_decide. Qed.

Lemma array_set_length (b : Board) (i : Z) (v : Cell) :
  length (array_set b i v) = length b.
Proof. unfold array_set. case_decide; [apply length_insert | done]. Qed.

(** ** Win and draw detection against the specification's words *)

Lemma checkWinCondition_spec (b : Board) (mover : Player) :
  checkWinCondition b mover = true ↔ spec_has_triple b mover.
Proof.
  unfold checkWinCondition, winPatterns, spec_has_triple, spec_triple_marked.
  cbn [existsb forallb].
  change 0%Z with (Z.of_nat 0); change 1%Z with (Z.of_nat 1);
  change 2%Z with (Z.of_nat 2); change 3%Z with (Z.of_nat 3);
  change 4%Z with (Z.of_nat 4); change 5%Z with (Z.of_nat 5);
  change 6%Z with (Z.of_nat 6); change 7%Z with (Z.of_nat 7);
  change 8%Z with (Z.of_nat 8).
  rewrite !array_get_nat.
  rewrite !orb_true_iff, !andb_true_iff, !bool_decide_eq_true.
  split.
  - intros [H|[H|[H|[H|[H|[H|[H|[H|H]]]]]]]]; [| | | | | | | |done];
      destruct H as (H1 & H2 & H3 & _);
      [ exists (0, 1, 2) | exists (3, 4, 5) | exists (6, 7, 8)
      | exists (0, 3, 6) | exists (1, 4, 7) | exists (2, 5, 8)
      | exists (0, 4, 8) | exists (2, 4, 6) ];
      (split; [unfold spec_triples; set_solver | done]).
  - intros ([[x y] z] & Hin & H1 & H2 & H3). simpl in *.
    unfold spec_triples in Hin.
    rewrite !elem_of_cons, elem_of_nil in Hin.
    destruct Hin as [E|[E|[E|[E|[E|[E|[E|[E|[]]]]]]]]];
      injection E as -> -> ->; tauto.
Qed.

Lemma isBoardFull_Forall (b : Board) :
  isBoardFull b = true ↔ Forall (fun cell => cell ≠ None) b.
Proof.
  unfold isBoardFull. induction b as [|cell b IH]; simpl.
  - split; [constructor | done].
  - rewrite andb_true_iff, bool_decide_eq_true, Forall_cons. by rewrite IH.
Qed.

Lemma isBoardFull_spec (b : Board) :
  length b = 9 → (isBoardFull b = true ↔ spec_board_full b).
Proof.
  intros Hlen. rewrite isBoardFull_Forall, Forall_lookup.
  unfold spec_board_full. split.
  - intros Hall i Hi.
    destruct (lookup_lt_is_Some_2 b i) as [[mark|] Hc]; [lia | eauto |].
    by destruct (Hall i None Hc).
  - intros Hfull i cell Hc ->.
    apply lookup_lt_Some in Hc as Hlt.
    destruct (Hfull i) as [mark Hmark]; [lia | congruence].
Qed.

Lemma determineGameResult_cases (b : Board) (mover : Player) :
  (checkWinCondition b mover = true ∧
   determineGameResult b mover = win_of mover) ∨
  (checkWinCondition b mover = false ∧ isBoardFull b = true ∧
   determineGameResult b mover = draw) ∨
  (checkWinCondition b mover = false ∧ isBoardFull b = false ∧
   determineGameResult b mover = ongoing).
Proof.
  unfold determineGameResult.
  destruct (checkWinCondition b mover); [left | right].
  - by destruct mover.
  - destruct (isBoardFull b); [left | right]; done.
Qed.

(** ** [makeMove]: when it resolves and what it writes *)

Lemma makeMove_not_found now input db :
  games db !! game_id input = None →
  makeMove now input db
  = (db, Rejected (absent (game_id input) (GameNotFound (game_id input)))).
Proof.
  intros Hnone. unfold makeMove, bind, db_select, absent. rewrite Hnone.
  by case_decide.
Qed.

Lemma makeMove_found now input db g :
  games db !! game_id input = Some g →
  makeMove now input db =
    if decide (status g = completed) then (db, Rejected GameAlreadyCompleted)
    else if decide (status g = waiting) then (db, Rejected GameNotStarted)
    else if decide (current_player g ≠ player input)
    then (db, Rejected (WrongTurn (player input) (current_player g)))
    else if decide (array_get (board g) (position input) ≠ Some None)
    then (db, Rejected (PositionOccupied (position input)))
    else (mkDatabase (<[game_id input := moved_row now input g]> (games db))
            (games_id_seq db),
          Resolved (moved_row now input g)).
Proof.
  intros Hg. unfold makeMove, bind, db_select. rewrite Hg. simpl.
  destruct (decide (status g = completed)); [done|].
  destruct (decide (status g = waiting)); [done|].
  destruct (decide (current_player g ≠ player input)); [done|].
  destruct (decide (array_get (board g) (position input) ≠ Some None));
    [done|].
  unfold db_update. rewrite Hg. reflexivity.
Qed.

(** A call either rejects and returns the database it was given, or finds an
    in-progress row of the mover with the cell empty and writes over it. *)
Lemma makeMove_cases now input db :
  (∃ e, makeMove now input db = (db, Rejected e)) ∨
  (∃ g, games db !! game_id input = Some g ∧
        status g = in_progress ∧
        current_player g = player input ∧
        array_get (board g) (position input) = Some None ∧
        makeMove now input db
        = (mkDatabase (<[game_id input := moved_row now input g]> (games db))
             (games_id_seq db),
           Resolved (moved_row now input g))).
Proof.
  destruct (games db !! game_id input) as [g|] eqn:Hg.
  - rewrite (makeMove_found now input db g Hg).
    repeat case_decide; eauto.
    right. exists g. split_and!; try done. by destruct (status g).
  - rewrite (makeMove_not_found now input db Hg). eauto.
Qed.

Lemma makeMove_Resolved_inv now input db db' r :
  makeMove now input db = (db', Resolved r) →
  ∃ g, games db !! game_id input = Some g ∧
       status g = in_progress ∧
       current_player g = player input ∧
       array_get (board g) (position input) = Some None ∧
       r = moved_row now input g ∧
       db' = mkDatabase (<[game_id input := r]> (games db)) (games_id_seq db).
Proof.
  destruct (games db !! game_id input) as [g|] eqn:Hg.
  - rewrite (makeMove_found now input db g Hg).
    repeat case_decide; try done.
    intros [= <- <-]. exists g. split_and!; try done.
    by destruct (status g).
  - rewrite (makeMove_not_found now input db Hg). done.
Qed.

(** ** The handlers on concrete records *)

Example sample_lookup : games sample_db !! 1%Z = Some sample_game.
Proof. reflexivity. Qed.

Example makeMove_sample :
  makeMove 3000 (mkMakeMoveInput 1 2 X) sample_db =
    ({| games :=
          {[ 1%Z :=
             {| id := 1;
                board := [Some X; Some X; Some X; Some O; Some O; None;
                          None; None; None];
                current_player := X;
                status := completed;
                result := X_wins;
                winner := Some X;
                created_at := 1000;
                updated_at := 3000 |} ]};
        games_id_seq := 1 |},
     Resolved
       {| id := 1;
          board := [Some X; Some X; Some X; Some O; Some O; None;
                    None; None; None];
          current_player := X;
          status := completed;
          result := X_wins;
          winner := Some X;
          created_at := 1000;
          updated_at := 3000 |}).
Proof. reflexivity. Qed.

(** ** The outcome of a move *)

(** C1. For an in-progress record, the mover whose turn it is and an empty
    position in 0..8, [makeMove] resolves, and the outcome it computes on the
    updated board is the mover's win exactly when one of the 8 fixed triples
    is all the mover's mark; it is a draw exactly when there is no such triple
    and all 9 cells are non-empty; it is ongoing exactly when there is no such
    triple and some cell is empty. *)
Theorem makeMove_outcome now input db g :
  games db !! game_id input = Some g →
  status g = in_progress →
  player input = current_player g →
  length (board g) = 9 →
  (0 ≤ position input ≤ 8)%Z →
  array_get (board g) (position input) = Some None →
  ∃ db' r,
    makeMove now input db = (db', Resolved r) ∧
    board r = <[Z.to_nat (position input) := Some (player input)]> (board g) ∧
    (result r = win_of (player input) ↔
       spec_has_triple (board r) (player input)) ∧
    (result r = draw ↔
       ¬ spec_has_triple (board r) (player input) ∧
       spec_board_full (board r)) ∧
    (result r = ongoing ↔
       ¬ spec_has_triple (board r) (player input) ∧
       ¬ spec_board_full (board r)).
Proof.
  intros Hg Hst Hturn Hlen Hpos Hempty.
  rewrite (makeMove_found now input db g Hg).
  rewrite decide_False by (rewrite Hst; done).
  rewrite decide_False by (rewrite Hst; done).
  rewrite decide_False by (intros Hne; by apply Hne).
  rewrite decide_False by (intros Hne; by apply Hne).
  eexists _, _. split; [reflexivity|].
  unfold moved_row; cbn [board result].
  set (nb := array_set (board g) (position input) (Some (player input))).
  assert (Hnb : length nb = 9) by (unfold nb; by rewrite array_set_length).
  split.
  { unfold nb. apply array_set_in_range. lia. }
  rewrite <- (checkWinCondition_spec nb (player input)).
  rewrite <- (isBoardFull_spec nb Hnb).
  destruct (determineGameResult_cases nb (player input))
    as [(Hw & ->)|[(Hw & Hf & ->)|(Hw & Hf & ->)]];
    rewrite Hw, ?Hf; destruct (player input); simpl;
    split_and!; split; try done; try tauto; intros [? ?]; done.
Qed.

Lemma makeMove_outcome_witness :
  ∃ db' r,
    makeMove 3000 (mkMakeMoveInput 1 2 X) sample_db = (db', Resolved r) ∧
    board r = <[2 := Some X]> (board sample_game) ∧
    (result r = X_wins ↔ spec_has_triple (board r) X) ∧
    (result r = draw ↔
       ¬ spec_has_triple (board r) X ∧ spec_board_full (board r)) ∧
    (result r = ongoing ↔
       ¬ spec_has_triple (board r) X ∧ ¬ spec_board_full (board r)).
Proof.
  apply (makeMove_outcome 3000 (mkMakeMoveInput 1 2 X) sample_db sample_game);
    [reflexivity | reflexivity | reflexivity | reflexivity
    | simpl; lia | reflexivity].
Defined.

(** C10. The classification looks at the mover's marks only: on every board,
    whatever the opponent's marks form, the result is never the opponent's
    win; it is the mover's win, a draw or ongoing. *)
Theorem determineGameResult_never_opponent (b : Board) (mover : Player) :
  determineGameResult b mover ≠ win_of (other mover) ∧
  (determineGameResult b mover = win_of mover ∨
   determineGameResult b mover = draw ∨
   determineGameResult b mover = ongoing).
Proof.
  destruct (determineGameResult_cases b mover)
    as [(_ & ->)|[(_ & _ & ->)|(_ & _ & ->)]];
    destruct mover; simpl; split; auto; discriminate.
Qed.

(** A board on which O already holds the top row: X's move is classified by
    X's marks alone. *)
Example determineGameResult_corrupt_board :
  spec_has_triple
    [Some O; Some O; Some O; Some X; None; None; None; None; None] O ∧
  determineGameResult
    [Some O; Some O; Some O; Some X; None; None; None; None; None] X = ongoing.
Proof.
  split; [|reflexivity].
  exists (0, 1, 2). split; [unfold spec_triples; set_solver | done].
Qed.

(** ** Whose turn it is after a move *)

(** C2. After a successful move the current player of the returned record is
    the mover when the outcome is not ongoing, and the other mover when it
    is. *)
Theorem makeMove_current_player now input db db' r :
  makeMove now input db = (db', Resolved r) →
  (result r ≠ ongoing → current_player r = player input) ∧
  (result r = ongoing → current_player r = other (player input)).
Proof.
  intros (g & _ & _ & _ & _ & -> & _)%makeMove_Resolved_inv.
  unfold moved_row; cbn [result current_player].
  split; intros Hres.
  - by rewrite bool_decide_eq_true_2.
  - rewrite bool_decide_eq_false_2 by (intros Hne; by apply Hne).
    by destruct (player input).
Qed.

Lemma makeMove_current_player_witness :
  ∃ db' r,
    makeMove 3000 (mkMakeMoveInput 1 2 X) sample_db = (db', Resolved r) ∧
    (result r ≠ ongoing → current_player r = X) ∧
    (result r = ongoing → current_player r = other X).
Proof.
  eexists _, _. split; [vm_compute; reflexivity|].
  eapply (makeMove_current_player 3000 (mkMakeMoveInput 1 2 X) sample_db).
  vm_compute; reflexivity.
Defined.

(** ** Rejected moves *)

(** C4. On a completed record every move is rejected with "Game is already
    completed", whatever the position and the mover: the status is examined
    before the turn and the cell. *)
Theorem makeMove_completed now input db g :
  games db !! game_id input = Some g →
  status g = completed →
  makeMove now input db = (db, Rejected GameAlreadyCompleted).
Proof.
  intros Hg Hst. rewrite (makeMove_found now input db g Hg).
  by rewrite decide_True.
Qed.

(** The move is by the wrong mover, out of range and would hit no cell. *)
Lemma makeMove_completed_witness :
  makeMove 3000 (mkMakeMoveInput 2 42 O) completed_db
  = (completed_db, Rejected GameAlreadyCompleted).
Proof.
  apply (makeMove_completed 3000 (mkMakeMoveInput 2 42 O) completed_db
           completed_game); reflexivity.
Defined.

(** C5. A rejected move leaves the database as it was: no column of any row
    is written. *)
Theorem makeMove_rejected_unchanged now input db db' e :
  makeMove now input db = (db', Rejected e) →
  db' = db.
Proof.
  destruct (makeMove_cases now input db) as [[e' ->]|(g & _ & _ & _ & _ & ->)];
    congruence.
Qed.

Example makeMove_occupied :
  makeMove 3000 (mkMakeMoveInput 1 0 X) sample_db
  = (sample_db, Rejected (PositionOccupied 0)).
Proof. reflexivity. Qed.

Lemma makeMove_rejected_unchanged_witness :
  ∃ db' e,
    makeMove 3000 (mkMakeMoveInput 1 0 X) sample_db = (db', Rejected e) ∧
    db' = sample_db.
Proof.
  eexists _, _. split; [vm_compute; reflexivity|].
  eapply (makeMove_rejected_unchanged 3000 (mkMakeMoveInput 1 0 X) sample_db).
  vm_compute; reflexivity.
Defined.

(** The only rejections of [makeMove] are its five validation messages and
    the database's refusal of a number outside the range of the column. *)
Lemma makeMove_rejected_kinds now input db db' e :
  makeMove now input db = (db', Rejected e) →
  e = NumericValueOutOfRange ∨
  e = GameNotFound (game_id input) ∨
  e = GameAlreadyCompleted ∨
  e = GameNotStarted ∨
  (∃ current, e = WrongTurn (player input) current) ∨
  e = PositionOccupied (position input).
Proof.
  destruct (games db !! game_id input) as [g|] eqn:Hg.
  - rewrite (makeMove_found now input db g Hg).
    repeat case_decide; intros [= <- <-]; eauto 10.
  - rewrite (makeMove_not_found now input db Hg). intros [= <- <-].
    unfold absent. case_decide; auto.
Qed.

(** The preconditions in the order they are examined. *)
Lemma makeMove_waiting now input db g :
  games db !! game_id input = Some g →
  status g = waiting →
  makeMove now input db = (db, Rejected GameNotStarted).
Proof.
  intros Hg Hst. rewrite (makeMove_found now input db g Hg).
  rewrite decide_False by (rewrite Hst; done). by rewrite decide_True.
Qed.

Lemma makeMove_wrong_turn now input db g :
  games db !! game_id input = Some g →
  status g = in_progress →
  current_player g ≠ player input →
  makeMove now input db
  = (db, Rejected (WrongTurn (player input) (current_player g))).
Proof.
  intros Hg Hst Hturn. rewrite (makeMove_found now input db g Hg).
  rewrite !decide_False by (rewrite Hst; done). by rewrite decide_True.
Qed.

Lemma makeMove_not_empty now input db g :
  games db !! game_id input = Some g →
  status g = in_progress →
  current_player g = player input →
  array_get (board g) (position input) ≠ Some None →
  makeMove now input db = (db, Rejected (PositionOccupied (position input))).
Proof.
  intros Hg Hst Hturn Hcell. rewrite (makeMove_found now input db g Hg).
  rewrite !decide_False by (rewrite Hst; done).
  rewrite decide_False by (intros Hne; by apply Hne).
  by rewrite decide_True.
Qed.

(** C3, as the specification has it, fails: X to move on an in-progress
    record, position 9.  The handler reads [board[9]], finds [undefined],
    which is not [null], and throws "Position 9 is already occupied". *)
Lemma makeMove_position_9_occupied :
  games sample_db !! 1%Z = Some sample_game ∧
  status sample_game = in_progress ∧
  current_player sample_game = X ∧
  ¬ (0 ≤ 9 ≤ 8)%Z ∧
  makeMove 3000 (mkMakeMoveInput 1 9 X) sample_db
  = (sample_db, Rejected (PositionOccupied 9)) ∧
  spec_kind (PositionOccupied 9) ≠ Some Kind.PositionOutOfRange.
Proof.
  split_and!;
    [reflexivity | reflexivity | reflexivity | lia | reflexivity | discriminate].
Qed.

(** C3, amended.  On an in-progress record of 9 cells, for the mover whose
    turn it is and a position outside 0..8, the handler rejects the move with
    the position-occupied message and leaves the database as it was; the
    range 0..8 is enforced by [makeMoveInputSchema] in the request layer,
    which refuses the input before the handler runs. *)
Theorem makeMove_out_of_range now input db g :
  games db !! game_id input = Some g →
  status g = in_progress →
  current_player g = player input →
  length (board g) = 9 →
  (position input < 0 ∨ 8 < position input)%Z →
  makeMove now input db = (db, Rejected (PositionOccupied (position input))) ∧
  spec_kind (PositionOccupied (position input)) = Some Kind.PositionOccupied ∧
  ∃ issue, makeMoveInputSchema input = Some issue ∧
           appRouter_makeMove now input db = (db, BadRequest issue).
Proof.
  intros Hg Hst Hturn Hlen Hpos. split_and!; [|done|].
  - apply (makeMove_not_empty now input db g); [done..|].
    rewrite array_get_outside by lia. done.
  - unfold appRouter_makeMove, makeMoveInputSchema.
    repeat case_decide; eauto; lia.
Qed.

Lemma makeMove_out_of_range_witness :
  makeMove 3000 (mkMakeMoveInput 1 (-1) X) sample_db
  = (sample_db, Rejected (PositionOccupied (-1))) ∧
  spec_kind (PositionOccupied (-1)) = Some Kind.PositionOccupied ∧
  ∃ issue, makeMoveInputSchema (mkMakeMoveInput 1 (-1) X) = Some issue ∧
           appRouter_makeMove 3000 (mkMakeMoveInput 1 (-1) X) sample_db
           = (sample_db, BadRequest issue).
Proof.
  apply (makeMove_out_of_range 3000 (mkMakeMoveInput 1 (-1) X) sample_db
           sample_game);
    [reflexivity | reflexivity | reflexivity | reflexivity | simpl; lia].
Defined.

(** ** [createGame], [resetGame], [getGame]: what they return *)

Lemma createGame_Resolved_inv now db db' r :
  createGame now db = (db', Resolved r) →
  r = {| id := games_id_seq db + 1;
         board := emptyBoard;
         current_player := X;
         status := in_progress;
         result := ongoing;
         winner := None;
         created_at := now;
         updated_at := now |}.
Proof.
  unfold createGame, bind, db_insert.
  case_decide; [done|].
  destruct (games db !! (games_id_seq db + 1)%Z); simpl; [done|].
  by intros [= _ <-].
Qed.

Lemma resetGame_not_found now input db :
  games db !! ResetGameInput.game_id input = None →
  resetGame now input db
  = (db, Rejected (absent (ResetGameInput.game_id input)
                     (GameIDNotFound (ResetGameInput.game_id input)))).
Proof.
  intros Hnone. unfold resetGame, bind, db_select, absent. rewrite Hnone.
  by case_decide.
Qed.

Lemma resetGame_found now input db g :
  games db !! ResetGameInput.game_id input = Some g →
  resetGame now input db
  = (mkDatabase (<[ResetGameInput.game_id input := reset_row now g]> (games db))
       (games_id_seq db),
     Resolved (reset_row now g)).
Proof.
  intros Hg. unfold resetGame, bind, db_select. rewrite Hg. simpl.
  unfold db_update. rewrite Hg. reflexivity.
Qed.

Lemma resetGame_Resolved_inv now input db db' r :
  resetGame now input db = (db', Resolved r) →
  ∃ g, games db !! ResetGameInput.game_id input = Some g ∧
       r = reset_row now g.
Proof.
  destruct (games db !! ResetGameInput.game_id input) as [g|] eqn:Hg.
  - rewrite (resetGame_found now input db g Hg). intros [= <- <-]. eauto.
  - rewrite (resetGame_not_found now input db Hg). done.
Qed.

Lemma moved_row_invariants now input g :
  spec_invariants (moved_row now input g).
Proof.
  unfold spec_invariants, moved_row; cbn [winner result status].
  destruct (determineGameResult _ _); simpl; split_and!;
    try done; try (split; intros; try done); intuition congruence.
Qed.

(** ** The invariants of a record *)

(** C6. Every record returned by [createGame], by a successful [makeMove] or
    by [resetGame] has a winner exactly when its result is a win, that winner
    being the mover of the win, and is completed exactly when its result is
    not ongoing. *)
Theorem handlers_establish_invariants :
  (∀ now db db' r,
     createGame now db = (db', Resolved r) → spec_invariants r) ∧
  (∀ now input db db' r,
     makeMove now input db = (db', Resolved r) → spec_invariants r) ∧
  (∀ now input db db' r,
     resetGame now input db = (db', Resolved r) → spec_invariants r).
Proof.
  split_and!.
  - intros now db db' r ->%createGame_Resolved_inv.
    unfold spec_invariants; simpl. split_and!; try done; split; try done.
    intros [|]; done.
  - intros now input db db' r Hrun.
    apply makeMove_Resolved_inv in Hrun as (g & _ & _ & _ & _ & -> & _).
    apply moved_row_invariants.
  - intros now input db db' r (g & _ & ->)%resetGame_Resolved_inv.
    unfold spec_invariants; simpl. split_and!; try done; split; try done.
    intros [|]; done.
Qed.

Lemma handlers_establish_invariants_witness :
  (∃ db' r,
     createGame 1000 empty_db = (db', Resolved r) ∧ spec_invariants r) ∧
  (∃ db' r,
     makeMove 3000 (mkMakeMoveInput 1 2 X) sample_db = (db', Resolved r) ∧
     spec_invariants r) ∧
  (∃ db' r,
     resetGame 3000 (ResetGameInput.mk 2) completed_db = (db', Resolved r) ∧
     spec_invariants r).
Proof.
  split_and!; eexists _, _; (split; [vm_compute; reflexivity|]).
  - eapply (proj1 handlers_establish_invariants 1000%Z empty_db).
    vm_compute; reflexivity.
  - eapply (proj1 (proj2 handlers_establish_invariants) 3000%Z
              (mkMakeMoveInput 1 2 X) sample_db).
    vm_compute; reflexivity.
  - eapply (proj2 (proj2 handlers_establish_invariants) 3000%Z
              (ResetGameInput.mk 2) completed_db).
    vm_compute; reflexivity.
Defined.

(** ** What a move changes *)

Lemma array_get_set_eq (b : Board) (i : Z) (v : Cell) :
  (0 ≤ i < Z.of_nat (length b))%Z →
  array_get (array_set b i v) i = Some v.
Proof.
  intros Hi. rewrite array_set_in_range by done.
  unfold array_get. rewrite decide_True by lia.
  apply list_lookup_insert_eq. lia.
Qed.

Lemma array_get_set_ne (b : Board) (i j : Z) (v : Cell) :
  j ≠ i → array_get (array_set b i v) j = array_get b j.
Proof.
  intros Hne. unfold array_set. case_decide; [|done].
  unfold array_get. case_decide; [|done].
  apply list_lookup_insert_ne. lia.
Qed.

(** The spread allocates: the array the handler writes to is not the array it
    read, which keeps its cells. *)
Lemma update_board_copies (h : gmap nat Board) (l : Aliasing.Ref)
  (cells : Board) (i : Z) (mover : Player) :
  h !! l = Some cells →
  ∃ l' h',
    Aliasing.update_board l i mover h = Some (l', h') ∧
    l' ≠ l ∧
    h' !! l = Some cells ∧
    h' !! l' = Some (array_set cells i (Some mover)) ∧
    ∀ k, k ≠ l' → h' !! k = h !! k.
Proof.
  intros Hl. unfold Aliasing.update_board, Aliasing.spread. rewrite Hl.
  set (l' := fresh (dom h)).
  assert (Hfresh : l' ∉ dom h) by apply is_fresh.
  assert (Hne : l' ≠ l).
  { intros ->. apply Hfresh. apply elem_of_dom. eauto. }
  eexists _, _. split; [reflexivity|]. unfold Aliasing.assign.
  split_and!; [done | | |].
  - rewrite lookup_alter_ne, lookup_insert_ne by done. done.
  - rewrite lookup_alter_eq, lookup_insert_eq. done.
  - intros k Hk. rewrite lookup_alter_ne, lookup_insert_ne by done. done.
Qed.

(** C7. A successful move at position p writes the mover's mark into cell p,
    which was empty, and nothing else: the other cells, the length of the
    board, the identifier and [created_at] are those of the stored record,
    and [updated_at] is the time of the call.  The returned record replaces
    the stored one under the same key and no other row is touched.  The
    array read from the stored record is not written to: the mark goes into
    a copy. *)
Theorem makeMove_frame now input db db' r :
  makeMove now input db = (db', Resolved r) →
  ∃ g,
    games db !! game_id input = Some g ∧
    array_get (board g) (position input) = Some None ∧
    array_get (board r) (position input) = Some (Some (player input)) ∧
    (∀ i, i ≠ position input →
          array_get (board r) i = array_get (board g) i) ∧
    length (board r) = length (board g) ∧
    id r = id g ∧
    created_at r = created_at g ∧
    updated_at r = now ∧
    games db' !! game_id input = Some r ∧
    (∀ k, k ≠ game_id input → games db' !! k = games db !! k) ∧
    (∀ (h : gmap nat Board) (l : Aliasing.Ref),
       h !! l = Some (board g) →
       ∃ l' h',
         Aliasing.update_board l (position input) (player input) h
         = Some (l', h') ∧
         l' ≠ l ∧
         h' !! l = Some (board g) ∧
         h' !! l' = Some (board r) ∧
         ∀ k, k ≠ l' → h' !! k = h !! k).
Proof.
  intros (g & Hg & _ & _ & Hempty & -> & ->)%makeMove_Resolved_inv.
  exists g. pose proof (array_get_null_in_range _ _ Hempty) as Hin.
  unfold moved_row;
    cbn [board id created_at updated_at games].
  split_and!; try done.
  - by apply array_get_set_eq.
  - intros i Hi. by apply array_get_set_ne.
  - apply array_set_length.
  - by rewrite lookup_insert_eq.
  - intros k Hk. by rewrite lookup_insert_ne.
  - intros h l Hl. by apply update_board_copies.
Qed.

Lemma makeMove_frame_witness :
  ∃ g,
    games sample_db !! 1%Z = Some g ∧
    array_get (board g) 5 = Some None ∧
    array_get (board (moved_row 3000 (mkMakeMoveInput 1 5 X) sample_game)) 5
    = Some (Some X) ∧
    (∀ i, i ≠ 5%Z →
          array_get (board (moved_row 3000 (mkMakeMoveInput 1 5 X) sample_game)) i
          = array_get (board g) i) ∧
    id (moved_row 3000 (mkMakeMoveInput 1 5 X) sample_game) = id g ∧
    created_at (moved_row 3000 (mkMakeMoveInput 1 5 X) sample_game)
    = created_at g ∧
    updated_at (moved_row 3000 (mkMakeMoveInput 1 5 X) sample_game) = 3000%Z.
Proof.
  destruct (makeMove_frame 3000 (mkMakeMoveInput 1 5 X) sample_db
              (mkDatabase
                 (<[1%Z := moved_row 3000 (mkMakeMoveInput 1 5 X) sample_game]>
                    (games sample_db)) 1)
              (moved_row 3000 (mkMakeMoveInput 1 5 X) sample_game))
    as (g & Hg & Hempty & Hmark & Hothers & _ & Hid & Hcreated & Hupdated & _);
    [vm_compute; reflexivity|].
  exists g. split_and!; done.
Defined.

(** ** Reset *)

(** C8, as the specification has it, fails: a reset made when the clock
    reads the stored [updated_at] again (here 2500) returns the same
    [updated_at], not a different one. *)
Lemma resetGame_equal_clock_reading :
  games completed_db !! 2%Z = Some completed_game ∧
  ∃ db' r,
    resetGame 2500 (ResetGameInput.mk 2) completed_db = (db', Resolved r) ∧
    updated_at r = updated_at completed_game.
Proof.
  split; [reflexivity|]. eexists _, _. split; reflexivity.
Qed.

(** C8, amended.  Whatever the stored record is (in progress, completed or
    waiting), [resetGame] resolves with a board of 9 empty cells, X to move,
    status in progress, result ongoing, no winner, the identifier and
    [created_at] of the stored record, and [updated_at] set to the clock
    reading of the call; that is a different [updated_at] exactly when the
    clock does not read the stored one again.  The returned record replaces
    the stored one. *)
Theorem resetGame_initial_state now input db g :
  games db !! ResetGameInput.game_id input = Some g →
  ∃ db' r,
    resetGame now input db = (db', Resolved r) ∧
    board r = [None; None; None; None; None; None; None; None; None] ∧
    current_player r = X ∧
    status r = in_progress ∧
    result r = ongoing ∧
    winner r = None ∧
    id r = id g ∧
    created_at r = created_at g ∧
    updated_at r = now ∧
    (updated_at r ≠ updated_at g ↔ now ≠ updated_at g) ∧
    games db' !! ResetGameInput.game_id input = Some r.
Proof.
  intros Hg. rewrite (resetGame_found now input db g Hg).
  eexists _, _. split; [reflexivity|]. simpl.
  split_and!; try done. by rewrite lookup_insert_eq.
Qed.

Lemma resetGame_initial_state_witness :
  ∃ db' r,
    resetGame 3000 (ResetGameInput.mk 2) completed_db = (db', Resolved r) ∧
    board r = [None; None; None; None; None; None; None; None; None] ∧
    current_player r = X ∧
    status r = in_progress ∧
    result r = ongoing ∧
    winner r = None ∧
    id r = id completed_game ∧
    created_at r = created_at completed_game ∧
    updated_at r = 3000%Z ∧
    (updated_at r ≠ updated_at completed_game
     ↔ 3000%Z ≠ updated_at completed_game) ∧
    games db' !! 2%Z = Some r.
Proof.
  apply (resetGame_initial_state 3000 (ResetGameInput.mk 2) completed_db
           completed_game).
  reflexivity.
Defined.

(** A waiting record is reset as well (the third status). *)
Example resetGame_waiting :
  resetGame 3000 (ResetGameInput.mk 7)
    {| games := {[ 7%Z := {| id := 7;
                             board := replicate 9 None;
                             current_player := O;
                             status := waiting;
                             result := ongoing;
                             winner := None;
                             created_at := 10;
                             updated_at := 20 |} ]};
       games_id_seq := 7 |}
  = ({| games := {[ 7%Z := {| id := 7;
                              board := replicate 9 None;
                              current_player := X;
                              status := in_progress;
                              result := ongoing;
                              winner := None;
                              created_at := 10;
                              updated_at := 3000 |} ]};
        games_id_seq := 7 |},
     Resolved {| id := 7;
                 board := replicate 9 None;
                 current_player := X;
                 status := in_progress;
                 result := ongoing;
                 winner := None;
                 created_at := 10;
                 updated_at := 3000 |}).
Proof. reflexivity. Qed.

(** The placeholder of [resetGame] stamped [created_at] with the time of the
    call, as its own comment says ("should keep original created_at"); the
    implementation keeps the stored one. *)
Example placeholder_resetGame_created_at :
  ∀ now input db,
    ∃ r, Placeholder.resetGame now input db = (db, Resolved r) ∧
         created_at r = now.
Proof. intros. eexists. split; reflexivity. Qed.

(** ** Lookup *)




(** The placeholder of [getGame] fabricates a record for every key. *)
Example placeholder_getGame_never_null :
  ∀ now input db, ∃ g, Placeholder.getGame now input db = (db, Resolved (Some g)).
Proof. intros. eexists. reflexivity. Qed.

(** ** The table stays keyed by the identifier *)

Lemma makeMove_db_wf now input db db' p :
  db_wf db → makeMove now input db = (db', p) → db_wf db'.
Proof.
  intros Hwf.
  destruct (makeMove_cases now input db) as [[e ->]|(g & Hg & _ & _ & _ & ->)].
  - by intros [= <- _].
  - intros [= <- _] k g'. simpl.
    destruct (decide (k = game_id input)) as [->|Hk].
    + rewrite lookup_insert_eq. intros [= <-]. simpl. by apply Hwf.
    + rewrite lookup_insert_ne by done. apply Hwf.
Qed.

Lemma resetGame_db_wf now input db db' r :
  db_wf db → resetGame now input db = (db', Resolved r) → db_wf db'.
Proof.
  intros Hwf Hrun.
  destruct (games db !! ResetGameInput.game_id input) as [g|] eqn:Hg.
  - rewrite (resetGame_found now input db g Hg) in Hrun.
    injection Hrun as <- <-. intros k g'. simpl.
    destruct (decide (k = ResetGameInput.game_id input)) as [->|Hk].
    + rewrite lookup_insert_eq. intros [= <-]. simpl. by apply Hwf.
    + rewrite lookup_insert_ne by done. apply Hwf.
  - by rewrite (resetGame_not_found now input db Hg) in Hrun.
Qed.

Lemma createGame_db_wf now db db' p :
  db_wf db → createGame now db = (db', p) → db_wf db'.
Proof.
  intros Hwf. unfold createGame, bind, db_insert.
  case_decide; [by intros [= <- _]|].
  destruct (games db !! (games_id_seq db + 1)%Z) eqn:Hk; simpl.
  - intros [= <- _]. apply Hwf.
  - intros [= <- _]. intros k g'. simpl.
    destruct (decide (k = (games_id_seq db + 1)%Z)) as [->|Hne].
    + rewrite lookup_insert_eq. by intros [= <-].
    + rewrite lookup_insert_ne by done. apply Hwf.
Qed.

(** * Further properties of the handlers *)

(** ** [makeMove]: when it resolves, and each way it rejects *)

(** X1. [makeMove] resolves exactly when the game is in the table, is in
    progress, it is the mover's turn and the cell at the position is
    [null]. *)
Theorem makeMove_resolves_iff now input db :
  (∃ db' r, makeMove now input db = (db', Resolved r)) ↔
  (∃ g, games db !! game_id input = Some g ∧
        status g = in_progress ∧
        current_player g = player input ∧
        array_get (board g) (position input) = Some None).
Proof.
  split.
  - intros (db' & r & Hrun).
    apply makeMove_Resolved_inv in Hrun as (g & ? & ? & ? & ? & _). eauto.
  - intros (g & Hg & Hst & Hturn & Hcell).
    rewrite (makeMove_found now input db g Hg).
    rewrite !decide_False by (rewrite Hst; done).
    rewrite decide_False by (intros Hne; by apply Hne).
    rewrite decide_False by (intros Hne; by apply Hne).
    eauto.
Qed.



(** X3. On a game in progress a move by the mover whose turn it is not is
    rejected with the wrong-turn message, which names the mover and the
    actual current player; the position is not looked at (it may be free,
    taken or outside the board). *)
Theorem makeMove_out_of_turn now input db g :
  games db !! game_id input = Some g →
  status g = in_progress →
  player input = other (current_player g) →
  makeMove now input db
  = (db, Rejected (WrongTurn (other (current_player g)) (current_player g))).
Proof.
  intros Hg Hst Hturn. rewrite <- Hturn.
  apply makeMove_wrong_turn; [done..|].
  rewrite Hturn. by destruct (current_player g).
Qed.

Lemma makeMove_out_of_turn_witness :
  makeMove 3000 (mkMakeMoveInput 1 77 O) sample_db
  = (sample_db, Rejected (WrongTurn O X)).
Proof.
  apply (makeMove_out_of_turn 3000 (mkMakeMoveInput 1 77 O) sample_db
           sample_game); reflexivity.
Defined.

(** X4. On a game in progress, a move by the right mover onto a cell that
    holds a mark (of either mover) is rejected with "Position p is already
    occupied" and the database is left as it was. *)
Theorem makeMove_on_marked_cell now input db g mark :
  games db !! game_id input = Some g →
  status g = in_progress →
  current_player g = player input →
  array_get (board g) (position input) = Some (Some mark) →
  makeMove now input db = (db, Rejected (PositionOccupied (position input))).
Proof.
  intros Hg Hst Hturn Hcell. apply (makeMove_not_empty now input db g); try done.
  by rewrite Hcell.
Qed.

Lemma makeMove_on_marked_cell_witness :
  makeMove 3000 (mkMakeMoveInput 1 3 X) sample_db
  = (sample_db, Rejected (PositionOccupied 3)).
Proof.
  apply (makeMove_on_marked_cell 3000 (mkMakeMoveInput 1 3 X) sample_db
           sample_game O); reflexivity.
Defined.



(** ** Moves one after the other *)

Lemma isBoardFull_false_empty_cell (b : Board) :
  isBoardFull b = false → ∃ i : nat, b !! i = Some None.
Proof.
  intros Hfull.
  destruct (decide (Forall (fun cell => cell ≠ None) b)) as [Hall|Hnot].
  - apply isBoardFull_Forall in Hall. congruence.
  - apply not_Forall_Exists in Hnot; [|apply _].
    apply Exists_exists in Hnot as (cell & Hin & Hcell).
    apply list_elem_of_lookup in Hin as [i Hi]. exists i.
    destruct cell; [by destruct Hcell | done].
Qed.

Lemma moved_row_result_cases now input g :
  (result (moved_row now input g) ≠ ongoing ∧
   status (moved_row now input g) = completed ∧
   current_player (moved_row now input g) = player input) ∨
  (result (moved_row now input g) = ongoing ∧
   status (moved_row now input g) = in_progress ∧
   current_player (moved_row now input g) = other (player input) ∧
   isBoardFull (board (moved_row now input g)) = false).
Proof.
  unfold moved_row; cbn [result status current_player board].
  set (nb := array_set (board g) (position input) (Some (player input))).
  destruct (determineGameResult_cases nb (player input))
    as [(Hw & Hr)|[(Hw & Hf & Hr)|(Hw & Hf & Hr)]]; rewrite Hr.
  - left. by destruct (player input).
  - left. done.
  - right. by destruct (player input).
Qed.

(** X6. Once a move has completed the game (win or draw), every further move
    on that game, by either mover at any position and at any time, is
    rejected with "Game is already completed" and changes nothing. *)
Theorem makeMove_after_completion now input db db' r now' position' player' :
  makeMove now input db = (db', Resolved r) →
  result r ≠ ongoing →
  makeMove now' (mkMakeMoveInput (game_id input) position' player') db'
  = (db', Rejected GameAlreadyCompleted).
Proof.
  intros (g & _ & _ & _ & _ & -> & ->)%makeMove_Resolved_inv Hres.
  rewrite (makeMove_found _ _ _ (moved_row now input g))
    by (simpl; apply lookup_insert_eq).
  destruct (moved_row_result_cases now input g) as [(_ & -> & _)|(Hon & _)];
    [|done].
  by rewrite decide_True.
Qed.

Lemma makeMove_after_completion_witness :
  ∃ db' r,
    makeMove 3000 (mkMakeMoveInput 1 2 X) sample_db = (db', Resolved r) ∧
    makeMove 4000 (mkMakeMoveInput 1 5 O) db'
    = (db', Rejected GameAlreadyCompleted).
Proof.
  eexists _, _. split; [vm_compute; reflexivity|].
  eapply (makeMove_after_completion 3000 (mkMakeMoveInput 1 2 X) sample_db
            _ _ 4000 5 O); [vm_compute; reflexivity | vm_compute; discriminate].
Defined.

(** X7. After a move that leaves the game ongoing, the same mover cannot move
    again: the attempt is rejected with the wrong-turn message naming the
    other mover as current player; the other mover's turn it is. *)
Theorem makeMove_twice_same_mover now input db db' r now' position' :
  makeMove now input db = (db', Resolved r) →
  result r = ongoing →
  makeMove now' (mkMakeMoveInput (game_id input) position' (player input)) db'
  = (db', Rejected (WrongTurn (player input) (other (player input)))).
Proof.
  intros (g & _ & _ & _ & _ & -> & ->)%makeMove_Resolved_inv Hres.
  rewrite (makeMove_found _ _ _ (moved_row now input g))
    by (simpl; apply lookup_insert_eq).
  destruct (moved_row_result_cases now input g)
    as [(Hne & _)|(_ & -> & -> & _)]; [done|].
  rewrite !decide_False by done. cbn [player].
  rewrite decide_True by (by destruct (player input)). done.
Qed.

Lemma makeMove_twice_same_mover_witness :
  ∃ db' r,
    makeMove 3000 (mkMakeMoveInput 1 5 X) sample_db = (db', Resolved r) ∧
    makeMove 4000 (mkMakeMoveInput 1 6 X) db'
    = (db', Rejected (WrongTurn X O)).
Proof.
  eexists _, _. split; [vm_compute; reflexivity|].
  eapply (makeMove_twice_same_mover 3000 (mkMakeMoveInput 1 5 X) sample_db
            _ _ 4000 6); vm_compute; reflexivity.
Defined.

(** X8. A game left ongoing by a move is never stuck: some cell of its
    board is empty, and the other mover's move there resolves. *)
Theorem makeMove_ongoing_can_continue now input db db' r :
  makeMove now input db = (db', Resolved r) →
  result r = ongoing →
  ∃ position' : Z,
    array_get (board r) position' = Some None ∧
    ∀ now', ∃ db'' r',
      makeMove now'
        (mkMakeMoveInput (game_id input) position' (other (player input))) db'
      = (db'', Resolved r').
Proof.
  intros (g & _ & _ & _ & _ & -> & ->)%makeMove_Resolved_inv Hres.
  destruct (moved_row_result_cases now input g)
    as [(Hne & _)|(_ & Hst & Hcur & Hfull)]; [done|].
  apply isBoardFull_false_empty_cell in Hfull as [i Hi].
  exists (Z.of_nat i). rewrite array_get_nat. split; [done|].
  intros now'.
  rewrite (makeMove_found _ _ _ (moved_row now input g))
    by (simpl; apply lookup_insert_eq).
  rewrite Hst, Hcur. cbn [position player].
  rewrite !decide_False by done.
  rewrite decide_False by (intros Hne; by apply Hne).
  rewrite array_get_nat.
  rewrite decide_False by (intros Hne; by apply Hne).
  eauto.
Qed.

Lemma makeMove_ongoing_can_continue_witness :
  ∃ db' r,
    makeMove 3000 (mkMakeMoveInput 1 5 X) sample_db = (db', Resolved r) ∧
    ∃ position' : Z,
      array_get (board r) position' = Some None ∧
      ∀ now', ∃ db'' r',
        makeMove now' (mkMakeMoveInput 1 position' O) db'
        = (db'', Resolved r').
Proof.
  eexists _, _. split; [vm_compute; reflexivity|].
  eapply (makeMove_ongoing_can_continue 3000 (mkMakeMoveInput 1 5 X)
            sample_db); vm_compute; reflexivity.
Defined.

(** X9. Read after write: after a resolved move, [getGame] on the same
    identifier resolves with exactly the record the move returned. *)
Theorem makeMove_then_getGame now input db db' r :
  makeMove now input db = (db', Resolved r) →
  getGame (GetGameInput.mk (game_id input)) db' = (db', Resolved (Some r)).
Proof.
  intros (g & _ & _ & _ & _ & _ & ->)%makeMove_Resolved_inv.
  unfold getGame, bind, db_select, new_Date. simpl.
  rewrite lookup_insert_eq. simpl. by destruct r.
Qed.

Lemma makeMove_then_getGame_witness :
  ∃ db' r,
    makeMove 3000 (mkMakeMoveInput 1 5 X) sample_db = (db', Resolved r) ∧
    getGame (GetGameInput.mk 1) db' = (db', Resolved (Some r)).
Proof.
  eexists _, _. split; [vm_compute; reflexivity|].
  eapply (makeMove_then_getGame 3000 (mkMakeMoveInput 1 5 X) sample_db).
  vm_compute; reflexivity.
Defined.

(** ** [createGame] *)

(** X10. Whenever [createGame] resolves, the new game has the next value of
    the sequence as identifier, an empty board of 9 cells, X to move, status
    in progress, result ongoing, no winner and both timestamps equal; it is
    stored under a key that was free, every other row is untouched, and
    [getGame] on the new identifier returns it. *)
Theorem createGame_new_game now db db' r :
  createGame now db = (db', Resolved r) →
  id r = (games_id_seq db + 1)%Z ∧
  board r = [None; None; None; None; None; None; None; None; None] ∧
  current_player r = X ∧
  status r = in_progress ∧
  result r = ongoing ∧
  winner r = None ∧
  created_at r = now ∧
  updated_at r = now ∧
  games db !! id r = None ∧
  games db' !! id r = Some r ∧
  (∀ k, k ≠ id r → games db' !! k = games db !! k) ∧
  games_id_seq db' = id r ∧
  getGame (GetGameInput.mk (id r)) db' = (db', Resolved (Some r)).
Proof.
  unfold createGame, bind, db_insert.
  case_decide; [done|].
  destruct (games db !! (games_id_seq db + 1)%Z) eqn:Hfree; simpl; [done|].
  intros [= <- <-]. simpl. split_and!; try done.
  - by rewrite lookup_insert_eq.
  - intros k Hk. by rewrite lookup_insert_ne.
  - unfold getGame, bind, db_select, new_Date. simpl.
    by rewrite lookup_insert_eq.
Qed.

Lemma createGame_new_game_witness :
  ∃ db' r,
    createGame 1000 sample_db = (db', Resolved r) ∧
    id r = 2%Z ∧
    games sample_db !! id r = None ∧
    games db' !! id r = Some r ∧
    getGame (GetGameInput.mk (id r)) db' = (db', Resolved (Some r)).
Proof.
  eexists _, _. split; [vm_compute; reflexivity|].
  destruct (createGame_new_game 1000 sample_db
              (mkDatabase
                 (<[2%Z := mkGame 2 emptyBoard X in_progress ongoing None
                             1000 1000]> (games sample_db)) 2)
              (mkGame 2 emptyBoard X in_progress ongoing None 1000 1000))
    as (Hid & _ & _ & _ & _ & _ & _ & _ & Hfree & Hstored & _ & _ & Hget);
    [vm_compute; reflexivity|].
  split_and!; [exact Hid | exact Hfree | exact Hstored | exact Hget].
Defined.

Lemma seq_wf_free db :
  seq_wf db → games db !! (games_id_seq db + 1)%Z = None.
Proof.
  intros Hwf. destruct (games db !! (games_id_seq db + 1)%Z) eqn:Hk; [|done].
  apply Hwf in Hk. lia.
Qed.

Lemma createGame_seq_wf now db db' p :
  seq_wf db → createGame now db = (db', p) → seq_wf db'.
Proof.
  intros Hwf. unfold createGame, bind, db_insert.
  case_decide; [by intros [= <- _]|].
  destruct (games db !! (games_id_seq db + 1)%Z) as [g0|] eqn:Hk; simpl.
  - intros [= <- _] k g Hg. simpl in *. apply Hwf in Hg. lia.
  - intros [= <- _] k g. simpl.
    destruct (decide (k = (games_id_seq db + 1)%Z)) as [->|Hne].
    + intros _. lia.
    + rewrite lookup_insert_ne by done. intros Hg%Hwf. lia.
Qed.

Lemma sample_db_seq_wf : seq_wf sample_db.
Proof.
  intros k g. unfold sample_db; simpl.
  intros [-> _]%lookup_singleton_Some. done.
Qed.

Lemma createGame_run now db :
  (games_id_seq db + 1 ≤ int4_max)%Z →
  games db !! (games_id_seq db + 1)%Z = None →
  createGame now db
  = (mkDatabase
       (<[(games_id_seq db + 1)%Z :=
            mkGame (games_id_seq db + 1) emptyBoard X in_progress ongoing
              None now now]> (games db))
       (games_id_seq db + 1),
     Resolved
       (mkGame (games_id_seq db + 1) emptyBoard X in_progress ongoing None
          now now)).
Proof.
  intros Hmax Hfree. unfold createGame, bind, db_insert.
  rewrite decide_False by lia. by rewrite Hfree.
Qed.

(** X12. Two games created one after the other, while the sequence of the
    identifier column has two values left and has handed out every key of
    the table, both resolve, get different identifiers, and both are in the
    table afterwards: the second creation does not disturb the first
    game. *)
Theorem createGame_twice now1 now2 db :
  seq_wf db →
  (games_id_seq db + 2 ≤ int4_max)%Z →
  ∃ db1 r1 db2 r2,
    createGame now1 db = (db1, Resolved r1) ∧
    createGame now2 db1 = (db2, Resolved r2) ∧
    id r1 ≠ id r2 ∧
    games db2 !! id r1 = Some r1 ∧
    games db2 !! id r2 = Some r2.
Proof.
  intros Hwf Hmax. pose proof (seq_wf_free db Hwf) as Hfree.
  assert (Hmax1 : (games_id_seq db + 1 ≤ int4_max)%Z) by lia.
  pose proof (createGame_run now1 db Hmax1 Hfree) as Hrun1.
  pose proof (createGame_seq_wf now1 db _ _ Hwf Hrun1) as Hwf1.
  match type of Hrun1 with _ = (?d, _) => set (db1 := d) in * end.
  assert (Hmax2 : (games_id_seq db1 + 1 ≤ int4_max)%Z) by (simpl; lia).
  pose proof (createGame_run now2 db1 Hmax2 (seq_wf_free _ Hwf1)) as Hrun2.
  eexists _, _, _, _. split; [exact Hrun1|]. split; [exact Hrun2|]. simpl.
  split_and!; [lia | |].
  - rewrite lookup_insert_ne by lia. by rewrite lookup_insert_eq.
  - by rewrite lookup_insert_eq.
Qed.

Lemma createGame_twice_witness :
  ∃ db1 r1 db2 r2,
    createGame 1000 sample_db = (db1, Resolved r1) ∧
    createGame 2000 db1 = (db2, Resolved r2) ∧
    id r1 ≠ id r2 ∧
    games db2 !! id r1 = Some r1 ∧
    games db2 !! id r2 = Some r2.
Proof.
  apply (createGame_twice 1000 2000 sample_db);
    [apply sample_db_seq_wf | vm_compute; discriminate].
Defined.

(** ** [resetGame] *)

(** X13. A reset touches only the row of the game it is given: every other
    row and the sequence of identifiers are unchanged, and [getGame] on the
    identifier returns the reset record. *)
Theorem resetGame_frame now input db db' r :
  resetGame now input db = (db', Resolved r) →
  (∀ k, k ≠ ResetGameInput.game_id input → games db' !! k = games db !! k) ∧
  games_id_seq db' = games_id_seq db ∧
  getGame (GetGameInput.mk (ResetGameInput.game_id input)) db'
  = (db', Resolved (Some r)).
Proof.
  destruct (games db !! ResetGameInput.game_id input) as [g|] eqn:Hg.
  - rewrite (resetGame_found now input db g Hg). intros [= <- <-].
    split_and!; [|done|].
    + intros k Hk. simpl. by rewrite lookup_insert_ne.
    + unfold getGame, bind, db_select, new_Date. simpl.
      by rewrite lookup_insert_eq.
  - by rewrite (resetGame_not_found now input db Hg).
Qed.

Lemma resetGame_frame_witness :
  ∃ db' r,
    resetGame 3000 (ResetGameInput.mk 1) three_db = (db', Resolved r) ∧
    (∀ k, k ≠ 1%Z → games db' !! k = games three_db !! k) ∧
    games_id_seq db' = games_id_seq three_db ∧
    getGame (GetGameInput.mk 1) db' = (db', Resolved (Some r)).
Proof.
  eexists _, _. split; [vm_compute; reflexivity|].
  eapply (resetGame_frame 3000 (ResetGameInput.mk 1) three_db).
  vm_compute; reflexivity.
Defined.

(** X14. Resetting twice is resetting once: a second reset at the same clock
    reading returns the same record and leaves the database as the first
    reset left it. *)
Theorem resetGame_idempotent now input db db' r :
  resetGame now input db = (db', Resolved r) →
  resetGame now input db' = (db', Resolved r).
Proof.
  destruct (games db !! ResetGameInput.game_id input) as [g|] eqn:Hg.
  - rewrite (resetGame_found now input db g Hg). intros [= <- <-].
    rewrite (resetGame_found now input _ (reset_row now g))
      by (simpl; apply lookup_insert_eq).
    simpl. by rewrite insert_insert_eq.
  - by rewrite (resetGame_not_found now input db Hg).
Qed.

Lemma resetGame_idempotent_witness :
  ∃ db' r,
    resetGame 3000 (ResetGameInput.mk 2) completed_db = (db', Resolved r) ∧
    resetGame 3000 (ResetGameInput.mk 2) db' = (db', Resolved r).
Proof.
  eexists _, _. split; [vm_compute; reflexivity|].
  eapply (resetGame_idempotent 3000 (ResetGameInput.mk 2) completed_db).
  vm_compute; reflexivity.
Defined.

Lemma first_move_ongoing (position : Z) :
  (0 ≤ position ≤ 8)%Z →
  determineGameResult (array_set emptyBoard position (Some X)) X = ongoing.
Proof.
  intros Hpos.
  assert (Hcases : position = 0%Z ∨ position = 1%Z ∨ position = 2%Z ∨
                   position = 3%Z ∨ position = 4%Z ∨ position = 5%Z ∨
                   position = 6%Z ∨ position = 7%Z ∨ position = 8%Z) by lia.
  destruct Hcases as [->|[->|[->|[->|[->|[->|[->|[->| ->]]]]]]]];
    reflexivity.
Qed.

(** X15. After a reset the game can be played again from the start, whatever
    state it was in: X's move at any position 0..8 resolves with X's mark in
    that cell only, the game still in progress, result ongoing, no winner and
    O to move; a move by O is rejected, X being the current player. *)
Theorem resetGame_then_first_move now input db db' r now' position' :
  resetGame now input db = (db', Resolved r) →
  (0 ≤ position' ≤ 8)%Z →
  (∃ db'' r',
     makeMove now'
       (mkMakeMoveInput (ResetGameInput.game_id input) position' X) db'
     = (db'', Resolved r') ∧
     board r' = <[Z.to_nat position' := Some X]> (replicate 9 None) ∧
     status r' = in_progress ∧
     result r' = ongoing ∧
     winner r' = None ∧
     current_player r' = O) ∧
  makeMove now'
    (mkMakeMoveInput (ResetGameInput.game_id input) position' O) db'
  = (db', Rejected (WrongTurn O X)).
Proof.
  intros Hrun Hpos.
  destruct (games db !! ResetGameInput.game_id input) as [g|] eqn:Hg;
    [|by rewrite (resetGame_not_found now input db Hg) in Hrun].
  rewrite (resetGame_found now input db g Hg) in Hrun.
  injection Hrun as <- <-.
  rewrite !(makeMove_found _ _ _ (reset_row now g))
    by (simpl; apply lookup_insert_eq).
  cbn [reset_row status current_player board player position].
  rewrite !decide_False by done.
  assert (Hcell : array_get emptyBoard position' = Some None).
  { unfold array_get. rewrite decide_True by lia.
    apply lookup_replicate_2. lia. }
  split.
  - rewrite decide_False by (intros Hne; by apply Hne).
    rewrite decide_False by (intros Hne; by apply Hne).
    eexists _, _. split; [reflexivity|].
    unfold moved_row;
      cbn [board status result winner current_player reset_row player position].
    rewrite (first_move_ongoing position' Hpos). simpl.
    split_and!; try done.
    apply array_set_in_range. simpl. lia.
  - reflexivity.
Qed.

Lemma resetGame_then_first_move_witness :
  ∃ db' r,
    resetGame 3000 (ResetGameInput.mk 2) completed_db = (db', Resolved r) ∧
    (∃ db'' r',
       makeMove 4000 (mkMakeMoveInput 2 4 X) db' = (db'', Resolved r') ∧
       board r' = <[Z.to_nat 4 := Some X]> (replicate 9 None) ∧
       status r' = in_progress ∧
       result r' = ongoing ∧
       winner r' = None ∧
       current_player r' = O) ∧
    makeMove 4000 (mkMakeMoveInput 2 4 O) db'
    = (db', Rejected (WrongTurn O X)).
Proof.
  eexists _, _. split; [vm_compute; reflexivity|].
  eapply (resetGame_then_first_move 3000 (ResetGameInput.mk 2) completed_db
            _ _ 4000 4); [vm_compute; reflexivity | lia].
Defined.

(** ** Rows and their keys *)

Lemma sample_db_wf : db_wf sample_db.
Proof.
  intros k g. unfold sample_db; simpl.
  intros [<- <-]%lookup_singleton_Some. done.
Qed.

(** X16. In a table where every row carries its own key, the record a
    handler returns is the one that was asked for: its identifier is the
    [game_id] of the input, for [makeMove], [resetGame] and [getGame]. *)
Theorem handlers_return_requested_game db :
  db_wf db →
  (∀ now input db' r,
     makeMove now input db = (db', Resolved r) → id r = game_id input) ∧
  (∀ now input db' r,
     resetGame now input db = (db', Resolved r) →
     id r = ResetGameInput.game_id input) ∧
  (∀ input db' r,
     getGame input db = (db', Resolved (Some r)) →
     id r = GetGameInput.game_id input).
Proof.
  intros Hwf. split_and!.
  - intros now input db' r (g & Hg & _ & _ & _ & -> & _)%makeMove_Resolved_inv.
    simpl. by apply Hwf.
  - intros now input db' r (g & Hg & ->)%resetGame_Resolved_inv.
    simpl. by apply Hwf.
  - intros input db' r. unfold getGame, bind, db_select.
    destruct (games db !! GetGameInput.game_id input) as [g|] eqn:Hg; simpl.
    + intros [= _ <-]. simpl. by apply Hwf.
    + case_decide; simpl; intros [= _ ?]; done.
Qed.

Lemma handlers_return_requested_game_witness :
  (∃ db' r, makeMove 3000 (mkMakeMoveInput 1 5 X) sample_db = (db', Resolved r)
            ∧ id r = 1%Z) ∧
  (∃ db' r, resetGame 3000 (ResetGameInput.mk 1) sample_db = (db', Resolved r)
            ∧ id r = 1%Z) ∧
  (∃ db' r, getGame (GetGameInput.mk 1) sample_db = (db', Resolved (Some r))
            ∧ id r = 1%Z).
Proof.
  pose proof (handlers_return_requested_game sample_db sample_db_wf)
    as (Hmove & Hreset & Hget).
  split_and!; eexists _, _; (split; [vm_compute; reflexivity|]).
  - eapply (Hmove 3000%Z (mkMakeMoveInput 1 5 X)). vm_compute; reflexivity.
  - eapply (Hreset 3000%Z (ResetGameInput.mk 1)). vm_compute; reflexivity.
  - eapply (Hget (GetGameInput.mk 1)). vm_compute; reflexivity.
Defined.

(** X17. Every handler keeps the table keyed by the identifier of its rows,
    and keeps every key within the values handed out by the sequence,
    whether it resolves or rejects. *)
Theorem handlers_keep_table_keyed db :
  db_wf db → seq_wf db →
  (∀ now db' p, createGame now db = (db', p) → db_wf db' ∧ seq_wf db') ∧
  (∀ now input db' p,
     makeMove now input db = (db', p) → db_wf db' ∧ seq_wf db') ∧
  (∀ now input db' p,
     resetGame now input db = (db', p) → db_wf db' ∧ seq_wf db') ∧
  (∀ input db' p, getGame input db = (db', p) → db' = db).
Proof.
  intros Hwf Hseq. split_and!.
  - intros now db' p Hrun. split.
    + by apply (createGame_db_wf now db db' p).
    + by apply (createGame_seq_wf now db db' p).
  - intros now input db' p Hrun. split.
    + by apply (makeMove_db_wf now input db db' p).
    + destruct (makeMove_cases now input db)
        as [[e He]|(g & Hg & _ & _ & _ & He)]; rewrite He in Hrun;
        injection Hrun as <- _; [done|].
      intros k g'. simpl.
      destruct (decide (k = game_id input)) as [->|Hk].
      * intros _. by apply (Hseq _ g).
      * rewrite lookup_insert_ne by done. apply Hseq.
  - intros now input db' p.
    destruct (games db !! ResetGameInput.game_id input) as [g|] eqn:Hg.
    + intros Hrun. split.
      * rewrite (resetGame_found now input db g Hg) in Hrun.
        injection Hrun as <- Hp.
        by apply (resetGame_db_wf now input db _ (reset_row now g) Hwf),
                 resetGame_found.
      * rewrite (resetGame_found now input db g Hg) in Hrun.
        injection Hrun as <- _. intros k g'. simpl.
        destruct (decide (k = ResetGameInput.game_id input)) as [->|Hk].
        -- intros _. by apply (Hseq _ g).
        -- rewrite lookup_insert_ne by done. apply Hseq.
    + rewrite (resetGame_not_found now input db Hg). by intros [= <- _].
  - intros input db' p. unfold getGame, bind, db_select.
    destruct (games db !! GetGameInput.game_id input); simpl;
      [|case_decide; simpl]; by intros [= <- _].
Qed.

Lemma handlers_keep_table_keyed_witness :
  (∀ now db' p, createGame now sample_db = (db', p) → db_wf db' ∧ seq_wf db') ∧
  (∀ now input db' p,
     makeMove now input sample_db = (db', p) → db_wf db' ∧ seq_wf db') ∧
  (∀ now input db' p,
     resetGame now input sample_db = (db', p) → db_wf db' ∧ seq_wf db') ∧
  (∀ input db' p, getGame input sample_db = (db', p) → db' = sample_db).
Proof.
  exact (handlers_keep_table_keyed sample_db sample_db_wf sample_db_seq_wf).
Defined.

(** ** [getGames] *)

#[global] Instance created_desc_total : Total created_desc.
Proof. intros g1 g2. unfold created_desc. lia. Qed.

#[global] Instance created_desc_trans : Transitive created_desc.
Proof. intros g1 g2 g3. unfold created_desc. lia. Qed.

Lemma getGames_run db :
  getGames db
  = (db, Resolved (merge_sort created_desc (map_to_list (games db)).*2)).
Proof.
  unfold getGames, bind, db_select_ordered, ret. do 2 f_equal.
  rewrite <- (map_id (merge_sort _ _)) at 2.
  apply map_ext. by intros [].
Qed.

Lemma most_recent_first_lookup (l : list Game) :
  StronglySorted created_desc l →
  ∀ i j gi gj,
    l !! i = Some gi → l !! j = Some gj → i < j →
    (created_at gj ≤ created_at gi)%Z.
Proof.
  induction 1 as [|g l Hl IH Hall]; intros i j gi gj Hi Hj Hij; [done|].
  destruct i as [|i], j as [|j]; try lia; simpl in *.
  - injection Hi as <-. rewrite Forall_lookup in Hall.
    by apply (Hall j gj).
  - apply (IH i j); [done..|lia].
Qed.

(** X18. [getGames] always resolves and does not change the database.  The
    list it returns holds exactly the rows of the table, each once (so it is
    as long as the table is large and is empty for an empty table), and it
    is in order of creation, most recent first: every game in the list was
    created no earlier than all the games after it. *)
Theorem getGames_all_most_recent_first db :
  ∃ results,
    getGames db = (db, Resolved results) ∧
    results ≡ₚ (map_to_list (games db)).*2 ∧
    (∀ g, g ∈ results ↔ ∃ k, games db !! k = Some g) ∧
    length results = size (games db) ∧
    (games db = ∅ → results = []) ∧
    (∀ i j gi gj,
       results !! i = Some gi → results !! j = Some gj → i < j →
       (created_at gj ≤ created_at gi)%Z).
Proof.
  eexists. split; [apply getGames_run|].
  set (rows := (map_to_list (games db)).*2).
  pose proof (merge_sort_Permutation created_desc rows) as Hperm.
  split_and!.
  - done.
  - intros g. rewrite Hperm. unfold rows. rewrite list_elem_of_fmap. split.
    + intros ([k g'] & -> & Hin). exists k. by apply elem_of_map_to_list.
    + intros [k Hk]. exists (k, g). split; [done|].
      by apply elem_of_map_to_list.
  - rewrite Hperm. unfold rows. rewrite length_fmap.
    by rewrite length_map_to_list.
  - intros Hempty. unfold rows. rewrite Hempty, map_to_list_empty.
    reflexivity.
  - apply most_recent_first_lookup, StronglySorted_merge_sort; apply _.
Qed.

Example getGames_three :
  (id <$>
     match getGames three_db with
     | (_, Resolved results) => results
     | (_, Rejected _) => []
     end)
  = [2%Z; 3%Z; 1%Z].
Proof. vm_compute. reflexivity. Qed.

(** ** Symmetries of the win detection *)

Lemma board_of_length_9 (b : Board) :
  length b = 9 →
  ∃ c0 c1 c2 c3 c4 c5 c6 c7 c8, b = [c0; c1; c2; c3; c4; c5; c6; c7; c8].
Proof.
  intros Hlen.
  do 9 (destruct b as [|? b]; [done|]).
  destruct b; [|done]. eauto 10.
Qed.

Ltac read_cells :=
  repeat match goal with
    | |- context [array_get ?l ?z] =>
        let v := eval vm_compute in (array_get l z) in
        change (array_get l z) with v
    end.

(** X19. Win detection does not depend on how the grid is held: on a board
    of 9 cells, a quarter turn and the mirror image (hence every rotation
    and reflection of the square) leave [checkWinCondition] and
    [determineGameResult] unchanged. *)
Theorem determineGameResult_symmetric (b : Board) (mover : Player) :
  length b = 9 →
  checkWinCondition (quarter_turn b) mover = checkWinCondition b mover ∧
  checkWinCondition (mirror b) mover = checkWinCondition b mover ∧
  determineGameResult (quarter_turn b) mover = determineGameResult b mover ∧
  determineGameResult (mirror b) mover = determineGameResult b mover.
Proof.
  intros (c0 & c1 & c2 & c3 & c4 & c5 & c6 & c7 & c8 & ->)%board_of_length_9.
  assert (Hturn :
    checkWinCondition (quarter_turn [c0; c1; c2; c3; c4; c5; c6; c7; c8]) mover
    = checkWinCondition [c0; c1; c2; c3; c4; c5; c6; c7; c8] mover).
  { unfold checkWinCondition, winPatterns, quarter_turn, rearrange. cbn.
    read_cells.
    generalize (bool_decide (Some c0 = Some (Some mover))),
               (bool_decide (Some c1 = Some (Some mover))),
               (bool_decide (Some c2 = Some (Some mover))),
               (bool_decide (Some c3 = Some (Some mover))),
               (bool_decide (Some c4 = Some (Some mover))),
               (bool_decide (Some c5 = Some (Some mover))),
               (bool_decide (Some c6 = Some (Some mover))),
               (bool_decide (Some c7 = Some (Some mover))),
               (bool_decide (Some c8 = Some (Some mover))).
    by intros [] [] [] [] [] [] [] [] []. }
  assert (Hmirror :
    checkWinCondition (mirror [c0; c1; c2; c3; c4; c5; c6; c7; c8]) mover
    = checkWinCondition [c0; c1; c2; c3; c4; c5; c6; c7; c8] mover).
  { unfold checkWinCondition, winPatterns, mirror, rearrange. cbn.
    read_cells.
    generalize (bool_decide (Some c0 = Some (Some mover))),
               (bool_decide (Some c1 = Some (Some mover))),
               (bool_decide (Some c2 = Some (Some mover))),
               (bool_decide (Some c3 = Some (Some mover))),
               (bool_decide (Some c4 = Some (Some mover))),
               (bool_decide (Some c5 = Some (Some mover))),
               (bool_decide (Some c6 = Some (Some mover))),
               (bool_decide (Some c7 = Some (Some mover))),
               (bool_decide (Some c8 = Some (Some mover))).
    by intros [] [] [] [] [] [] [] [] []. }
  assert (Hfull_turn :
    isBoardFull (quarter_turn [c0; c1; c2; c3; c4; c5; c6; c7; c8])
    = isBoardFull [c0; c1; c2; c3; c4; c5; c6; c7; c8]).
  { unfold isBoardFull, quarter_turn, rearrange. cbn.
    by destruct c0, c1, c2, c3, c4, c5, c6, c7, c8. }
  assert (Hfull_mirror :
    isBoardFull (mirror [c0; c1; c2; c3; c4; c5; c6; c7; c8])
    = isBoardFull [c0; c1; c2; c3; c4; c5; c6; c7; c8]).
  { unfold isBoardFull, mirror, rearrange. cbn.
    by destruct c0, c1, c2, c3, c4, c5, c6, c7, c8. }
  unfold determineGameResult.
  rewrite Hturn, Hmirror, Hfull_turn, Hfull_mirror. done.
Qed.

Lemma determineGameResult_symmetric_witness :
  checkWinCondition (quarter_turn (board completed_game)) X
  = checkWinCondition (board completed_game) X ∧
  checkWinCondition (mirror (board completed_game)) X
  = checkWinCondition (board completed_game) X ∧
  determineGameResult (quarter_turn (board completed_game)) X
  = determineGameResult (board completed_game) X ∧
  determineGameResult (mirror (board completed_game)) X
  = determineGameResult (board completed_game) X.
Proof.
  apply (determineGameResult_symmetric (board completed_game) X).
  reflexivity.
Defined.

Example quarter_turn_row_to_column :
  quarter_turn (board completed_game)
  = [None; Some O; Some X; None; Some O; Some X; None; None; Some X].
Proof. reflexivity. Qed.

Lemma array_get_swap_marks (b : Board) (i : Z) :
  array_get (swap_marks b) i = swap_cell <$> array_get b i.
Proof.
  unfold array_get, swap_marks. case_decide; [|done].
  apply list_lookup_fmap.
Qed.

Lemma checkWinCondition_swap_marks (b : Board) (mover : Player) :
  checkWinCondition (swap_marks b) (other mover) = checkWinCondition b mover.
Proof.
  unfold checkWinCondition.
  induction winPatterns as [|pattern patterns IH]; [done|].
  cbn [existsb]. rewrite IH. f_equal.
  induction pattern as [|i pattern IHp]; [done|].
  cbn [forallb]. rewrite IHp. f_equal.
  rewrite array_get_swap_marks.
  destruct (array_get b i) as [[[]|]|], mover; reflexivity.
Qed.

Lemma isBoardFull_swap_marks (b : Board) :
  isBoardFull (swap_marks b) = isBoardFull b.
Proof.
  unfold isBoardFull, swap_marks.
  induction b as [|cell b IH]; [done|].
  cbn [map forallb]. rewrite IH. by destruct cell.
Qed.

(** X20. The two movers are treated alike: exchanging the marks on the board
    and asking for the other mover gives the same verdict seen from the other
    side (a win of X becomes a win of O and conversely; draw and ongoing are
    kept), on every board. *)
Theorem determineGameResult_swap_marks (b : Board) (mover : Player) :
  determineGameResult (swap_marks b) (other mover)
  = swap_result (determineGameResult b mover).
Proof.
  unfold determineGameResult.
  rewrite checkWinCondition_swap_marks, isBoardFull_swap_marks.
  destruct (checkWinCondition b mover), (isBoardFull b), mover; reflexivity.
Qed.

(** ** Fair positions *)

Lemma count_mark_insert (b : Board) (i : nat) (mover mark : Player) :
  b !! i = Some None →
  count_mark mover (<[i := Some mark]> b)
  = count_mark mover b + (if decide (mover = mark) then 1 else 0).
Proof.
  unfold count_mark. revert i. induction b as [|cell b IH]; intros i Hi.
  - done.
  - destruct i as [|i]; simpl in *.
    + injection Hi as ->. rewrite !filter_cons.
      rewrite (decide_False (P := None = Some mover)) by done.
      destruct (decide (mover = mark)) as [->|Hne].
      * rewrite decide_True by done. simpl. lia.
      * rewrite decide_False by congruence. lia.
    + rewrite !filter_cons. specialize (IH i Hi).
      destruct (decide (cell = Some mover)); simpl; lia.
Qed.

Lemma spec_has_triple_insert_other (b : Board) (i : nat) (mover : Player) :
  b !! i = Some None →
  spec_has_triple (<[i := Some mover]> b) (other mover)
  ↔ spec_has_triple b (other mover).
Proof.
  intros Hi.
  assert (Hcell : ∀ j,
    <[i := Some mover]> b !! j = Some (Some (other mover))
    ↔ b !! j = Some (Some (other mover))).
  { intros j. destruct (decide (i = j)) as [<-|Hne].
    - rewrite list_lookup_insert_eq by (by eapply lookup_lt_Some).
      rewrite Hi. split; [|done]. intros [= Heq]. by destruct mover.
    - by rewrite list_lookup_insert_ne. }
  unfold spec_has_triple, spec_triple_marked.
  split; intros (t & Hin & H1 & H2 & H3); exists t;
    (split; [done|]); rewrite ?Hcell in *; done.
Qed.

Lemma emptyBoard_no_triple (mover : Player) :
  ¬ spec_has_triple emptyBoard mover.
Proof.
  rewrite <- checkWinCondition_spec. by destruct mover.
Qed.

(** X21. A move keeps the position fair.  If the stored game has 9 cells, no
    triple of either mover and as many marks of each mover as the turn
    requires (X starts), then so has the record returned by a resolved
    move when it is still in progress; and when the move completes the
    game, the mover who did not move holds no triple, so that a recorded win
    is never contradicted by a triple of the loser. *)
Theorem makeMove_keeps_fair now input db db' r g :
  games db !! game_id input = Some g →
  spec_fair g →
  makeMove now input db = (db', Resolved r) →
  spec_fair r ∧
  (result r ≠ ongoing → ¬ spec_has_triple (board r) (other (player input))).
Proof.
  intros Hg (Hlen & Hfair) Hrun.
  apply makeMove_Resolved_inv in Hrun as (g' & Hg' & Hst & Hcur & Hcell & -> & _).
  assert (g' = g) as -> by congruence.
  rewrite Hst in Hfair. destruct Hfair as (HnoX & HnoO & Hcount).
  pose proof (array_get_null_in_range _ _ Hcell) as Hrange.
  assert (Hi : board g !! Z.to_nat (position input) = Some None).
  { unfold array_get in Hcell. by rewrite decide_True in Hcell by lia. }
  assert (Hother : ¬ spec_has_triple
                     (array_set (board g) (position input) (Some (player input)))
                     (other (player input))).
  { rewrite array_set_in_range by done.
    rewrite spec_has_triple_insert_other by done.
    by destruct (player input). }
  assert (HcX := count_mark_insert (board g) _ X (player input) Hi).
  assert (HcO := count_mark_insert (board g) _ O (player input) Hi).
  rewrite <- array_set_in_range in HcX, HcO by done.
  unfold spec_fair, moved_row;
    cbn [board status result current_player].
  set (nb := array_set (board g) (position input) (Some (player input))) in *.
  split; [|done].
  split; [unfold nb; by rewrite array_set_length|].
  destruct (determineGameResult_cases nb (player input))
    as [(Hw & ->)|[(Hw & Hf & ->)|(Hw & Hf & ->)]].
  - rewrite bool_decide_eq_true_2 by (by destruct (player input)).
    split; [done|]. rewrite HcX, HcO, Hcount, Hcur.
    destruct (player input); simpl; lia.
  - rewrite bool_decide_eq_true_2 by done.
    split; [done|]. rewrite HcX, HcO, Hcount, Hcur.
    destruct (player input); simpl; lia.
  - rewrite bool_decide_eq_false_2 by (intros Hne; by apply Hne).
    assert (Hmine : ¬ spec_has_triple nb (player input)).
    { rewrite <- checkWinCondition_spec. by rewrite Hw. }
    split_and!.
    + destruct (player input); done.
    + destruct (player input); done.
    + rewrite HcX, HcO, Hcount, Hcur.
      destruct (player input); simpl; lia.
Qed.

Lemma sample_game_fair : spec_fair sample_game.
Proof.
  split; [reflexivity|]. simpl. split_and!.
  - rewrite <- checkWinCondition_spec. done.
  - rewrite <- checkWinCondition_spec. done.
  - reflexivity.
Qed.

Lemma makeMove_keeps_fair_witness :
  ∃ db' r,
    makeMove 3000 (mkMakeMoveInput 1 2 X) sample_db = (db', Resolved r) ∧
    spec_fair r ∧
    (result r ≠ ongoing → ¬ spec_has_triple (board r) O).
Proof.
  eexists _, _. split; [vm_compute; reflexivity|].
  eapply (makeMove_keeps_fair 3000 (mkMakeMoveInput 1 2 X) sample_db _ _
            sample_game);
    [reflexivity | apply sample_game_fair | vm_compute; reflexivity].
Defined.

(** X22. The games [createGame] and [resetGame] return are fair starting
    positions: 9 cells, all of them empty, so no mark and no triple of
    either mover, the game in progress and X to move. *)
Theorem new_games_are_fair :
  (∀ now db db' r,
     createGame now db = (db', Resolved r) →
     spec_fair r ∧
     length (board r) = 9 ∧ count_empty (board r) = 9 ∧
     count_mark X (board r) = 0 ∧ count_mark O (board r) = 0 ∧
     ¬ spec_has_triple (board r) X ∧ ¬ spec_has_triple (board r) O ∧
     status r = in_progress ∧ current_player r = X) ∧
  (∀ now input db db' r,
     resetGame now input db = (db', Resolved r) →
     spec_fair r ∧
     length (board r) = 9 ∧ count_empty (board r) = 9 ∧
     count_mark X (board r) = 0 ∧ count_mark O (board r) = 0 ∧
     ¬ spec_has_triple (board r) X ∧ ¬ spec_has_triple (board r) O ∧
     status r = in_progress ∧ current_player r = X).
Proof.
  split.
  - intros now db db' r ->%createGame_Resolved_inv. simpl.
    split_and!; try reflexivity; try apply emptyBoard_no_triple.
    split; [reflexivity|]. simpl.
    split_and!; [apply emptyBoard_no_triple.. | reflexivity].
  - intros now input db db' r (g & _ & ->)%resetGame_Resolved_inv. simpl.
    split_and!; try reflexivity; try apply emptyBoard_no_triple.
    split; [reflexivity|]. simpl.
    split_and!; [apply emptyBoard_no_triple.. | reflexivity].
Qed.

Lemma new_games_are_fair_witness :
  (∃ db' r,
     createGame 1000 empty_db = (db', Resolved r) ∧
     spec_fair r ∧
     length (board r) = 9 ∧ count_empty (board r) = 9 ∧
     count_mark X (board r) = 0 ∧ count_mark O (board r) = 0 ∧
     ¬ spec_has_triple (board r) X ∧ ¬ spec_has_triple (board r) O ∧
     status r = in_progress ∧ current_player r = X) ∧
  (∃ db' r,
     resetGame 3000 (ResetGameInput.mk 2) completed_db = (db', Resolved r) ∧
     spec_fair r ∧
     length (board r) = 9 ∧ count_empty (board r) = 9 ∧
     count_mark X (board r) = 0 ∧ count_mark O (board r) = 0 ∧
     ¬ spec_has_triple (board r) X ∧ ¬ spec_has_triple (board r) O ∧
     status r = in_progress ∧ current_player r = X).
Proof.
  split; eexists _, _; (split; [vm_compute; reflexivity|]).
  - eapply (proj1 new_games_are_fair 1000%Z empty_db).
    vm_compute; reflexivity.
  - eapply (proj2 new_games_are_fair 3000%Z (ResetGameInput.mk 2)
              completed_db).
    vm_compute; reflexivity.
Defined.

(** ** How long a game can last *)

Lemma count_empty_insert (b : Board) (i : nat) (mark : Player) :
  b !! i = Some None →
  count_empty (<[i := Some mark]> b) + 1 = count_empty b.
Proof.
  unfold count_empty. revert i. induction b as [|cell b IH]; intros i Hi.
  - done.
  - destruct i as [|i]; simpl in *.
    + injection Hi as ->. rewrite !filter_cons.
      rewrite decide_False by done. rewrite decide_True by done.
      simpl. lia.
    + rewrite !filter_cons. specialize (IH i Hi).
      destruct (decide (cell = None)); simpl; lia.
Qed.

Lemma count_empty_le_length (b : Board) : count_empty b ≤ length b.
Proof. unfold count_empty. apply length_filter. Qed.

Lemma play_resolved_bound k moves :
  ∀ db g,
    games db !! k = Some g →
    resolved_on k moves (play moves db).2 ≤ count_empty (board g).
Proof.
  induction moves as [|[now input] rest IH]; intros db g Hg; simpl; [lia|].
  destruct (makeMove_cases now input db)
    as [[e He]|(g0 & Hg0 & _ & _ & Hcell & He)]; rewrite He.
  - specialize (IH db g Hg).
    destruct (play rest db) as [db2 others]. simpl in *. done.
  - set (db1 := mkDatabase _ _).
    destruct (decide (game_id input = k)) as [Hk|Hk].
    + assert (g0 = g) as -> by congruence.
      assert (Hg1 : games db1 !! k = Some (moved_row now input g)).
      { unfold db1; simpl. rewrite Hk. apply lookup_insert_eq. }
      specialize (IH db1 _ Hg1).
      destruct (play rest db1) as [db2 others]. simpl in *.
      pose proof (array_get_null_in_range _ _ Hcell) as Hrange.
      rewrite array_set_in_range in IH by done.
      assert (Hi : board g !! Z.to_nat (position input) = Some None).
      { unfold array_get in Hcell. by rewrite decide_True in Hcell by lia. }
      pose proof (count_empty_insert _ _ (player input) Hi). lia.
    + assert (Hg1 : games db1 !! k = Some g).
      { unfold db1; simpl. by rewrite lookup_insert_ne. }
      specialize (IH db1 g Hg1).
      destruct (play rest db1) as [db2 others]. simpl in *. done.
Qed.

(** X23. However a client plays (any movers, positions and times, moves on
    other games in between, rejected attempts included), the moves that
    resolve on one game are at most as many as the empty cells of its board,
    hence at most as many as its cells: 9 on a board of 9 cells. *)
Theorem play_at_most_empty_cells k moves db g :
  games db !! k = Some g →
  resolved_on k moves (play moves db).2 ≤ count_empty (board g) ∧
  count_empty (board g) ≤ length (board g).
Proof.
  intros Hg. split; [by apply play_resolved_bound|].
  apply count_empty_le_length.
Qed.

Lemma play_at_most_empty_cells_witness :
  resolved_on 1
    [(3000%Z, mkMakeMoveInput 1 5 X); (3001%Z, mkMakeMoveInput 1 5 O);
     (3002%Z, mkMakeMoveInput 1 6 O); (3003%Z, mkMakeMoveInput 1 2 X);
     (3004%Z, mkMakeMoveInput 1 7 O)]
    (play
       [(3000%Z, mkMakeMoveInput 1 5 X); (3001%Z, mkMakeMoveInput 1 5 O);
        (3002%Z, mkMakeMoveInput 1 6 O); (3003%Z, mkMakeMoveInput 1 2 X);
        (3004%Z, mkMakeMoveInput 1 7 O)] sample_db).2
  ≤ count_empty (board sample_game) ∧
  count_empty (board sample_game) ≤ length (board sample_game).
Proof.
  apply (play_at_most_empty_cells 1 _ sample_db sample_game). reflexivity.
Defined.

Example play_sample :
  resolved_on 1
    [(3000%Z, mkMakeMoveInput 1 5 X); (3001%Z, mkMakeMoveInput 1 5 O);
     (3002%Z, mkMakeMoveInput 1 6 O); (3003%Z, mkMakeMoveInput 1 2 X);
     (3004%Z, mkMakeMoveInput 1 7 O)]
    (play
       [(3000%Z, mkMakeMoveInput 1 5 X); (3001%Z, mkMakeMoveInput 1 5 O);
        (3002%Z, mkMakeMoveInput 1 6 O); (3003%Z, mkMakeMoveInput 1 2 X);
        (3004%Z, mkMakeMoveInput 1 7 O)] sample_db).2
  = 3.
Proof. vm_compute. reflexivity. Qed.

(** ** The winner of a move *)

(** X24. A move can only be won by the mover who makes it: the winner
    recorded by a resolved move is either absent or the mover, it is the
    mover exactly when the mover holds one of the 8 triples on the new board,
    and then the result is that mover's win and the game is completed. *)
Theorem makeMove_winner_is_mover now input db db' r :
  makeMove now input db = (db', Resolved r) →
  (winner r = None ∨ winner r = Some (player input)) ∧
  (winner r = Some (player input)
   ↔ spec_has_triple (board r) (player input)) ∧
  (winner r = Some (player input) →
   result r = win_of (player input) ∧ status r = completed).
Proof.
  intros (g & _ & _ & _ & _ & -> & _)%makeMove_Resolved_inv.
  unfold moved_row; cbn [winner board result status].
  set (nb := array_set (board g) (position input) (Some (player input))).
  rewrite <- (checkWinCondition_spec nb (player input)).
  destruct (determineGameResult_cases nb (player input))
    as [(Hw & ->)|[(Hw & Hf & ->)|(Hw & Hf & ->)]]; rewrite Hw;
    destruct (player input); simpl; split_and!; auto; try done;
    split; done.
Qed.

Lemma makeMove_winner_is_mover_witness :
  ∃ db' r,
    makeMove 3000 (mkMakeMoveInput 1 2 X) sample_db = (db', Resolved r) ∧
    (winner r = None ∨ winner r = Some X) ∧
    (winner r = Some X ↔ spec_has_triple (board r) X) ∧
    (winner r = Some X → result r = X_wins ∧ status r = completed).
Proof.
  eexists _, _. split; [vm_compute; reflexivity|].
  eapply (makeMove_winner_is_mover 3000 (mkMakeMoveInput 1 2 X) sample_db).
  vm_compute; reflexivity.
Defined.

(** ** The request layer *)

(** X25. Through the router a position outside 0..8 is refused as a bad
    request before the handler runs, whatever the database holds (the game
    may be missing, waiting or completed), and nothing is changed; a
    position in 0..8 passes the schema. *)
Theorem appRouter_makeMove_position_check now input db :
  ((position input < 0 ∨ 8 < position input)%Z →
   ∃ issue, appRouter_makeMove now input db = (db, BadRequest issue)) ∧
  ((0 ≤ position input ≤ 8)%Z → makeMoveInputSchema input = None).
Proof.
  unfold appRouter_makeMove, makeMoveInputSchema.
  split; intros Hpos; repeat case_decide; eauto; lia.
Qed.

Lemma appRouter_makeMove_position_check_witness :
  (∃ issue,
     appRouter_makeMove 3000 (mkMakeMoveInput 2 9 O) completed_db
     = (completed_db, BadRequest issue)) ∧
  makeMoveInputSchema (mkMakeMoveInput 2 8 O) = None.
Proof.
  split.
  - apply (proj1 (appRouter_makeMove_position_check 3000
                    (mkMakeMoveInput 2 9 O) completed_db)).
    simpl; lia.
  - apply (proj2 (appRouter_makeMove_position_check 3000
                    (mkMakeMoveInput 2 8 O) completed_db)).
    simpl; lia.
Defined.

(** X26. Through the router, on a stored board of 9 cells, "Position p is
    already occupied" is only ever answered for a cell that holds a mark:
    the schema has kept the positions outside the board away from the
    handler. *)
Theorem appRouter_makeMove_occupied_is_marked now input db db' g p :
  games db !! game_id input = Some g →
  length (board g) = 9 →
  appRouter_makeMove now input db
  = (db', InternalServerError (PositionOccupied p)) →
  p = position input ∧
  (0 ≤ p ≤ 8)%Z ∧
  ∃ mark, array_get (board g) p = Some (Some mark).
Proof.
  intros Hg Hlen. unfold appRouter_makeMove, makeMoveInputSchema.
  destruct (decide (position input < 0)%Z); [done|].
  destruct (decide (8 < position input)%Z); [done|].
  rewrite (makeMove_found now input db g Hg).
  repeat case_decide; try done. intros [= <- <-].
  split; [done|]. split; [lia|].
  destruct (array_get (board g) (position input)) as [[mark|]|] eqn:Hcell.
  - eauto.
  - done.
  - unfold array_get in Hcell. rewrite decide_True in Hcell by lia.
    apply lookup_ge_None in Hcell. lia.
Qed.

Lemma appRouter_makeMove_occupied_is_marked_witness :
  3%Z = 3%Z ∧ (0 ≤ 3 ≤ 8)%Z ∧
  ∃ mark, array_get (board sample_game) 3 = Some (Some mark).
Proof.
  apply (appRouter_makeMove_occupied_is_marked 3000 (mkMakeMoveInput 1 3 X)
           sample_db sample_db sample_game 3);
    [reflexivity | reflexivity | vm_compute; reflexivity].
Defined.

(** ** The range of the identifier column *)

(** On a table the database can hold, a number outside the range of the
    column never finds a row: the query fails. *)
Lemma db_select_out_of_range db k :
  int4_wf db → ¬ in_int4 k →
  db_select k db = (db, Rejected NumericValueOutOfRange).
Proof.
  intros [Hkeys _] Hrange. unfold db_select.
  destruct (games db !! k) as [g|] eqn:Hk.
  - by apply Hkeys in Hk.
  - by rewrite decide_False.
Qed.

(** The handlers keep the table such that the database can hold it. *)
Lemma handlers_keep_int4 db :
  int4_wf db →
  (∀ now db' p, createGame now db = (db', p) → int4_wf db') ∧
  (∀ now input db' p, makeMove now input db = (db', p) → int4_wf db') ∧
  (∀ now input db' p, resetGame now input db = (db', p) → int4_wf db').
Proof.
  intros [Hkeys Hseq]. split_and!.
  - intros now db' p. unfold createGame, bind, db_insert.
    case_decide; [by intros [= <- _]|].
    destruct (games db !! (games_id_seq db + 1)%Z) eqn:Hk; simpl;
      intros [= <- _]; (split; simpl; [|lia]).
    + done.
    + intros k g. destruct (decide (k = (games_id_seq db + 1)%Z)) as [->|Hne].
      * intros _. unfold in_int4, int4_max in *. lia.
      * rewrite lookup_insert_ne by done. apply Hkeys.
  - intros now input db' p.
    destruct (makeMove_cases now input db)
      as [[e ->]|(g & Hg & _ & _ & _ & ->)]; intros [= <- _]; [done|].
    split; [|done]. intros k g'. simpl.
    destruct (decide (k = game_id input)) as [->|Hk].
    + intros _. by apply (Hkeys _ g).
    + rewrite lookup_insert_ne by done. apply Hkeys.
  - intros now input db' p.
    destruct (games db !! ResetGameInput.game_id input) as [g|] eqn:Hg.
    + rewrite (resetGame_found now input db g Hg). intros [= <- _].
      split; [|done]. intros k g'. simpl.
      destruct (decide (k = ResetGameInput.game_id input)) as [->|Hk].
      * intros _. by apply (Hkeys _ g).
      * rewrite lookup_insert_ne by done. apply Hkeys.
    + rewrite (resetGame_not_found now input db Hg). by intros [= <- _].
Qed.
